(** * VozFinancas: the expense store, the tool-call executor, the audio
      plumbing and the companion REST backend.

    The development embeds the client component [App] (closures of one
    React render, the [localStorage] copy, the playback queue, the silence
    timer and the teardown routine) and the [POST /api/expenses] handler of
    the server, and proves properties of those embeddings.

    Modelling conventions, used throughout:
    - a JavaScript [number] is an exact rational ([Qc]); IEEE rounding,
      signed zeros, [NaN] and the infinities are outside the model;
    - a JavaScript string is a [string] (its UTF-8 bytes); [===] on strings
      is [String.eqb];
    - the object [categories] of [updateSummary] is used as a map from
      category names to running totals and is a [gmap string number];
      [Object.entries] enumerates it, and no property below depends on the
      enumeration order; only own properties are modelled;
    - the clock ([Date.now()], [new Date()]) is an input of every call. *)

From stdpp Require Import base numbers strings list gmap fin_maps.
From Stdlib Require Import Ascii QArith Qcanon.

Open Scope Qc_scope.

(** ** Sums of amounts *)

Section Sums.

(** The mathematical sum of a list of amounts. *)
Definition total (l : list Qc) : Qc := foldr Qcplus 0 l.

Lemma total_nil : total [] = 0.
Proof. reflexivity. Qed.

Lemma total_cons (x : Qc) (l : list Qc) : total (x :: l) = x + total l.
Proof. reflexivity. Qed.

Lemma total_app (l k : list Qc) : total (l ++ k) = total l + total k.
Proof.
  induction l as [|x l IH].
  - rewrite app_nil_l, total_nil. ring.
  - rewrite <- app_comm_cons, !total_cons, IH. ring.
Qed.


(** [xs.reduce((sum, x) => sum + f(x), init)] *)
Definition reduce_sum {A} (f : A → Qc) (l : list A) (init : Qc) : Qc :=
  fold_left (λ sum e, sum + f e) l init.

Lemma reduce_sum_total {A} (f : A → Qc) (l : list A) (init : Qc) :
  reduce_sum f l init = init + total (f <$> l).
Proof.
  unfold reduce_sum. revert init.
  induction l as [|x l IH]; intros init.
  - rewrite fmap_nil, total_nil. cbn [fold_left]. ring.
  - rewrite fmap_cons, total_cons. cbn [fold_left]. rewrite IH. ring.
Qed.

End Sums.

(** ** The local store and the tool-call executor *)

Module Store.

Abbreviation number := Qc (only parsing).

(** [interface Expense] *)
Record Expense := {
  id : number;
  amount : number;
  description : string;
  category_name : string;
  date : string
}.

(** [interface Summary]; an entry [{ name, total }] is a pair. *)
Record Summary := {
  daily : number;
  byCategory : list (string * number)
}.

#[global] Instance Expense_eq_dec : EqDecision Expense.
Proof. solve_decision. Defined.

#[global] Instance Summary_eq_dec : EqDecision Summary.
Proof. solve_decision. Defined.

(** [iso.split('T')[0]] *)
Fixpoint split_T_head (iso : string) : string :=
  match iso with
  | EmptyString => EmptyString
  | String c rest =>
      if Ascii.eqb c "T"%char then EmptyString else String c (split_T_head rest)
  end.

(** [x || 0] on the result of a property read of [categories]: a missing
    property is [undefined], and [undefined] and [0] are falsy. *)
Definition or_zero (x : option number) : number :=
  match x with
  | Some v => if decide (v = 0) then 0 else v
  | None => 0
  end.

(** The body of the [forEach] of [updateSummary]. *)
Definition add_to_category (categories : gmap string number) (e : Expense)
  : gmap string number :=
  <[category_name e := or_zero (categories !! category_name e) + amount e]>
    categories.

Definition categories_of (allExpenses : list Expense) : gmap string number :=
  fold_left add_to_category allExpenses ∅.

(** [e.date.startsWith(today)]: the expense is dated [today]. *)
Definition falls_on (today : string) (e : Expense) : Prop :=
  String.prefix today (date e) = true.

#[global] Instance falls_on_dec today e : Decision (falls_on today e).
Proof. unfold falls_on. apply _. Defined.

(** [updateSummary]; [now_iso] is [new Date().toISOString()] as read by
    the call, and the result is the argument of [setSummary]. *)
Definition updateSummary (now_iso : string) (allExpenses : list Expense)
  : Summary :=
  let today := split_T_head now_iso in
  let daily :=
    reduce_sum amount (filter (falls_on today) allExpenses) 0 in
  let categories := categories_of allExpenses in
  {| daily := daily; byCategory := map_to_list categories |}.

(** The constants [expenses] and [summary] of one render of [App]: the
    values every closure created by that render sees. *)
Record render := {
  expenses : list Expense;
  summary : Summary
}.

(** A background [fetch] whose outcome is discarded. *)
Inductive request :=
| PostExpense (amount : number) (description category : string)
| DeleteExpense (id : number).

(** The value bound to [result] in the tool-call loop. [Undefined] is the
    initial value of [let result;]. *)
Inductive result :=
| Added (status : string) (expense : Expense)
| ExpenseList (l : list Expense)
| Deleted (status : string)
| SummaryOf (s : Summary)
| Undefined.

#[global] Instance request_eq_dec : EqDecision request.
Proof. solve_decision. Defined.

#[global] Instance result_eq_dec : EqDecision result.
Proof. solve_decision. Defined.

(** The [status] field of a result, for the results that have one. *)
Definition status_of (r : result) : option string :=
  match r with
  | Added status _ | Deleted status => Some status
  | ExpenseList _ | SummaryOf _ | Undefined => None
  end.

(** One element of [functionResponses]. *)
Record functionResponse := {
  fr_name : string;
  fr_id : string;
  fr_result : result
}.

(** What the component owns: the React state, the [localStorage] entry
    [vozfinancas_expenses], the responses handed to
    [session.sendToolResponse] and the requests handed to [fetch], both
    oldest first. *)
Record app := {
  state_expenses : list Expense;
  state_summary : Summary;
  localStorage : option (list Expense);
  sent : list functionResponse;
  fetched : list request
}.

#[global] Instance functionResponse_eq_dec : EqDecision functionResponse.
Proof. solve_decision. Defined.

#[global] Instance app_eq_dec : EqDecision app.
Proof. solve_decision. Defined.

Definition current_render (a : app) : render :=
  {| expenses := state_expenses a; summary := state_summary a |}.

(** The readings of the clock made while one tool call is handled. *)
Record clock := {
  Date_now : number;          (* [Date.now()] *)
  Date_iso : string;          (* [new Date().toISOString()] of the expense *)
  summary_iso : string        (* [new Date().toISOString()] in [updateSummary] *)
}.

(** [saveLocalData] *)
Definition saveLocalData (clk : clock) (newExpenses : list Expense) (a : app)
  : app :=
  {| state_expenses := newExpenses;
     state_summary := updateSummary (summary_iso clk) newExpenses;
     localStorage := Some newExpenses;
     sent := sent a;
     fetched := fetched a |}.

Definition fetch (r : request) (a : app) : app :=
  {| state_expenses := state_expenses a;
     state_summary := state_summary a;
     localStorage := localStorage a;
     sent := sent a;
     fetched := fetched a ++ [r] |}.

Definition sendToolResponse (fr : functionResponse) (a : app) : app :=
  {| state_expenses := state_expenses a;
     state_summary := state_summary a;
     localStorage := localStorage a;
     sent := sent a ++ [fr];
     fetched := fetched a |}.

(** [call.args], read through the casts of the handler. *)
Record args := {
  arg_amount : number;
  arg_description : string;
  arg_category : string;
  arg_id : number
}.

(** One element of [message.toolCall.functionCalls]. *)
Record functionCall := {
  name : string;
  call_id : string;
  call_args : args
}.

(** The branch of the loop body that computes [result]. [r] is the render
    whose [startRecording] opened the session: the handler reads the
    [expenses] and [summary] of that render. *)
Definition dispatch (r : render) (clk : clock) (call : functionCall) (a : app)
  : app * result :=
  if String.eqb (name call) "add_expense" then
    let newExpense :=
      {| id := Date_now clk;
         amount := arg_amount (call_args call);
         description := arg_description (call_args call);
         category_name := arg_category (call_args call);
         date := Date_iso clk |} in
    let updated := expenses r ++ [newExpense] in
    let a := saveLocalData clk updated a in
    let a := fetch (PostExpense (arg_amount (call_args call))
                      (arg_description (call_args call))
                      (arg_category (call_args call))) a in
    (a, Added "success" newExpense)
  else if String.eqb (name call) "get_expenses" then
    (a, ExpenseList (expenses r))
  else if String.eqb (name call) "delete_expense" then
    let updated :=
      filter (λ e, id e ≠ arg_id (call_args call)) (expenses r) in
    let a := saveLocalData clk updated a in
    let a := fetch (DeleteExpense (arg_id (call_args call))) a in
    (a, Deleted "success")
  else if String.eqb (name call) "get_summary" then
    (a, SummaryOf (summary r))
  else
    (a, Undefined).

(** The body of [for (const call of message.toolCall.functionCalls)]. *)
Definition handle_call (r : render) (clk : clock) (call : functionCall)
    (a : app) : app :=
  let '(a, result) := dispatch r clk call a in
  sendToolResponse
    {| fr_name := name call; fr_id := call_id call; fr_result := result |} a.

(** The tool-call part of [onmessage], over the calls of a session in
    arrival order, each with its clock readings. *)
Definition handle_calls (r : render) (calls : list (clock * functionCall))
    (a : app) : app :=
  fold_left (λ a c, handle_call r c.1 c.2 a) calls a.

(** A session: [startRecording] is a closure of the current render, and
    so are the callbacks it registers. *)
Definition session (calls : list (clock * functionCall)) (a : app) : app :=
  handle_calls (current_render a) calls a.

(** The delete button of the expense list, a closure of the render that
    displays it. *)
Definition ui_delete (clk : clock) (expense_id : number) (a : app) : app :=
  let updated := filter (λ e, id e ≠ expense_id) (state_expenses a) in
  fetch (DeleteExpense expense_id) (saveLocalData clk updated a).

(** *** What [updateSummary] computes *)












(** *** Concrete sessions *)

(** The component before any expense was recorded. *)
Definition fresh_app : app :=
  {| state_expenses := [];
     state_summary := {| daily := 0; byCategory := [] |};
     localStorage := None;
     sent := [];
     fetched := [] |}.

(** The clock readings at millisecond [ms], below 10, of 2 November 2026,
    10:00:00 UTC. *)
Definition at_ms (ms : nat) : clock :=
  let iso :=
    "2026-11-02T10:00:00.00" +:+ String (ascii_of_nat (48 + ms)) "Z" in
  {| Date_now := Q2Qc (inject_Z (1793613600000 + Z.of_nat ms));
     Date_iso := iso;
     summary_iso := iso |}.

Definition add_expense (cid : string) (amount : number)
    (description category : string) : functionCall :=
  {| name := "add_expense"; call_id := cid;
     call_args := {| arg_amount := amount; arg_description := description;
                     arg_category := category; arg_id := 0 |} |}.

Definition delete_expense (cid : string) (expense_id : number) : functionCall :=
  {| name := "delete_expense"; call_id := cid;
     call_args := {| arg_amount := 0; arg_description := "";
                     arg_category := ""; arg_id := expense_id |} |}.

(** A call without arguments. *)
Definition call0 (name cid : string) : functionCall :=
  {| name := name; call_id := cid;
     call_args := {| arg_amount := 0; arg_description := "";
                     arg_category := ""; arg_id := 0 |} |}.

(** The expense that [add_expense amount description category] creates
    under the clock readings [clk]. *)
Definition created (clk : clock) (call : functionCall) : Expense :=
  {| id := Date_now clk;
     amount := arg_amount (call_args call);
     description := arg_description (call_args call);
     category_name := arg_category (call_args call);
     date := Date_iso clk |}.

(** The four tool names of the handler. *)
Definition tool_names : list string :=
  ["add_expense"; "get_expenses"; "delete_expense"; "get_summary"].

(** Following the specification: the arguments [add_expense] is said to
    accept (every [number] of this development is finite). *)
Definition spec_valid_args (a : args) : bool :=
  bool_decide (arg_description a ≠ "") && bool_decide (arg_category a ≠ "").

(** Following the specification: a response tagged with [tag]. *)
Definition spec_tagged (tag : string) (fr : functionResponse) : Prop :=
  status_of (fr_result fr) = Some tag.

(** *** Facts about the handlers *)

Lemma handle_calls_snoc r calls clk call a :
  handle_calls r (calls ++ [(clk, call)]) a
  = handle_call r clk call (handle_calls r calls a).
Proof. unfold handle_calls. by rewrite fold_left_app. Qed.

Lemma handle_call_add r clk call a :
  name call = "add_expense" →
  handle_call r clk call a
  = sendToolResponse
      {| fr_name := name call; fr_id := call_id call;
         fr_result := Added "success" (created clk call) |}
      (fetch (PostExpense (arg_amount (call_args call))
                (arg_description (call_args call))
                (arg_category (call_args call)))
         (saveLocalData clk (expenses r ++ [created clk call]) a)).
Proof. intros H. unfold handle_call, dispatch. by rewrite H. Qed.


Lemma handle_call_get_summary r clk call a :
  name call = "get_summary" →
  handle_call r clk call a
  = sendToolResponse
      {| fr_name := name call; fr_id := call_id call;
         fr_result := SummaryOf (summary r) |} a.
Proof. intros H. unfold handle_call, dispatch. by rewrite H. Qed.

Lemma handle_call_other r clk call a :
  name call ∉ tool_names →
  handle_call r clk call a
  = sendToolResponse
      {| fr_name := name call; fr_id := call_id call;
         fr_result := Undefined |} a.
Proof.
  intros H.
  assert (∀ s, s ∈ tool_names → String.eqb (name call) s = false) as Hf.
  { intros s Hs. apply String.eqb_neq. intros Heq. apply H. by rewrite Heq. }
  unfold handle_call, dispatch.
  rewrite !Hf; [done|unfold tool_names; set_solver..].
Qed.

(** The delete button reads the collection of the render that displays
    it: an identifier that matches no stored expense leaves the stored
    collection as it is. *)
Lemma ui_delete_absent_id clk expense_id a :
  Forall (λ e, id e ≠ expense_id) (state_expenses a) →
  state_expenses (ui_delete clk expense_id a) = state_expenses a.
Proof.
  intros H. unfold ui_delete. cbn [fetch saveLocalData state_expenses].
  induction (state_expenses a) as [|e l IH]; [done|].
  apply Forall_cons in H as [He Hl].
  by rewrite filter_cons_True, IH by done.
Qed.

(** Whatever the session did before, [get_summary] answers with the
    summary of the render that opened the session. *)
Lemma get_summary_answers_captured r calls clk cid a :
  last (sent (handle_calls r (calls ++ [(clk, call0 "get_summary" cid)]) a))
  = Some {| fr_name := "get_summary"; fr_id := cid;
            fr_result := SummaryOf (summary r) |}.
Proof.
  rewrite handle_calls_snoc, handle_call_get_summary by done.
  cbn [sendToolResponse sent]. by rewrite last_snoc.
Qed.

(** *** The session scenarios *)

Definition coffee : functionCall :=
  add_expense "call-1" (Q2Qc 25) "café" "Alimentação".

Definition taxi : functionCall :=
  add_expense "call-1" (Q2Qc 40) "táxi" "Transporte".

Definition cinema : functionCall :=
  add_expense "call-2" (Q2Qc 60) "cinema" "Lazer".

(** C1. In a session opened on the empty store, [add_expense(25, "café",
    "Alimentação")] followed by [get_summary] is answered with the summary
    of the render that opened the session, [{daily: 0, byCategory: []}],
    although the component's state then holds a daily total of 25 and the
    bucket [("Alimentação", 25)]; and after the adds of 40 and 60 in two
    categories, [get_summary] is answered with the same empty summary,
    while the stored collection holds the second expense only and the
    stored daily total is 60, not 100. *)
Theorem get_summary_after_add_is_stale :
  let a := session [(at_ms 0, coffee); (at_ms 5, call0 "get_summary" "call-2")]
             fresh_app in
  let b := session [(at_ms 0, taxi); (at_ms 5, cinema);
                    (at_ms 9, call0 "get_summary" "call-3")] fresh_app in
  last (sent a)
  = Some {| fr_name := "get_summary"; fr_id := "call-2";
            fr_result := SummaryOf {| daily := 0; byCategory := [] |} |}
  ∧ state_summary a
    = {| daily := Q2Qc 25; byCategory := [("Alimentação", Q2Qc 25)] |}
  ∧ last (sent b)
    = Some {| fr_name := "get_summary"; fr_id := "call-3";
              fr_result := SummaryOf {| daily := 0; byCategory := [] |} |}
  ∧ state_expenses b = [created (at_ms 5) cinema]
  ∧ state_summary b
    = {| daily := Q2Qc 60; byCategory := [("Lazer", Q2Qc 60)] |}.
Proof. vm_compute. repeat split; reflexivity. Qed.



(** The call of the counterexample to validation: a blank description and
    a blank category. *)
Definition blank : functionCall := add_expense "call-1" (Q2Qc 5) "" "".

(** C3, counterexample. A call with an empty description and an empty
    category, which the specification's validation rejects, adds an
    expense to the collection. *)
Lemma add_expense_blank_fields_counterexample :
  spec_valid_args (call_args blank) = false
  ∧ state_expenses (session [(at_ms 0, blank)] fresh_app)
    = [created (at_ms 0) blank].
Proof. vm_compute. split; reflexivity. Qed.

(** C3, amended. [add_expense] does not validate its arguments: for every
    amount, description and category it creates an expense with these
    fields and the clock readings as identifier and timestamp, makes it the
    last expense of the stored collection, persists that collection,
    recomputes the summary from it and answers with the created record and
    the status [success]. *)
Theorem add_expense_unvalidated r clk cid amount description category a :
  let call := add_expense cid amount description category in
  let a' := handle_call r clk call a in
  last (state_expenses a') = Some (created clk call)
  ∧ localStorage a' = Some (state_expenses a')
  ∧ state_summary a' = updateSummary (summary_iso clk) (state_expenses a')
  ∧ sent a' = sent a ++ [{| fr_name := "add_expense"; fr_id := cid;
                            fr_result := Added "success" (created clk call) |}].
Proof.
  intros call a'. subst a'. rewrite handle_call_add by done.
  cbn [sendToolResponse fetch saveLocalData state_expenses localStorage
       state_summary sent].
  by rewrite last_snoc.
Qed.

(** C4, counterexample. The response to a call named [unknown_tool] has
    the result [undefined]; it is not tagged [UnsupportedTool]. *)
Lemma unknown_tool_untagged_counterexample :
  let a := session [(at_ms 0, call0 "unknown_tool" "call-7")] fresh_app in
  sent a = [{| fr_name := "unknown_tool"; fr_id := "call-7";
               fr_result := Undefined |}]
  ∧ ¬ Exists (spec_tagged "UnsupportedTool") (sent a).
Proof.
  split; [reflexivity|].
  intros H. apply Exists_exists in H as (fr & Hin & Htag).
  apply list_elem_of_singleton in Hin. subst fr. discriminate Htag.
Qed.

(** C4, amended. For every call whose name is none of the four tool names,
    the handler changes neither the stored expenses, the summary nor the
    persisted copy, starts no background request, and sends exactly one
    response, which carries the name and the id of the call and the result
    [undefined]. *)
Theorem unknown_tool_answered r clk call a :
  name call ∉ tool_names →
  let a' := handle_call r clk call a in
  state_expenses a' = state_expenses a
  ∧ state_summary a' = state_summary a
  ∧ localStorage a' = localStorage a
  ∧ fetched a' = fetched a
  ∧ sent a' = sent a ++ [{| fr_name := name call; fr_id := call_id call;
                            fr_result := Undefined |}].
Proof. intros H a'. subst a'. by rewrite handle_call_other. Qed.

(** The theorem at the call named [unknown_tool]. *)
Lemma unknown_tool_answered_witness :
  let call := call0 "unknown_tool" "call-7" in
  let a' := handle_call (current_render fresh_app) (at_ms 0) call fresh_app in
  state_expenses a' = state_expenses fresh_app
  ∧ state_summary a' = state_summary fresh_app
  ∧ localStorage a' = localStorage fresh_app
  ∧ fetched a' = fetched fresh_app
  ∧ sent a' = sent fresh_app ++ [{| fr_name := name call;
                                    fr_id := call_id call;
                                    fr_result := Undefined |}].
Proof.
  apply (unknown_tool_answered (current_render fresh_app) (at_ms 0)
           (call0 "unknown_tool" "call-7") fresh_app).
  vm_compute. intros H. repeat (apply elem_of_cons in H as [H|H]; [discriminate H|]).
  by apply elem_of_nil in H.
Defined.

(** C5. In a session opened on the empty store, after [add_expense(25,
    "café", "Alimentação")] the stored collection holds the created expense;
    [delete_expense(999)], whose id matches no expense, answers [success]
    and leaves the stored collection empty and the stored daily total 0:
    the delete filters the collection of the render that opened the
    session and stores the outcome. *)
Theorem delete_absent_id_drops_session_adds :
  let r := current_render fresh_app in
  let a1 := handle_call r (at_ms 0) coffee fresh_app in
  let a2 := handle_call r (at_ms 5) (delete_expense "call-2" (Q2Qc 999)) a1 in
  state_expenses a1 = [created (at_ms 0) coffee]
  ∧ Forall (λ e, id e ≠ Q2Qc 999) (state_expenses a1)
  ∧ last (sent a2)
    = Some {| fr_name := "delete_expense"; fr_id := "call-2";
              fr_result := Deleted "success" |}
  ∧ state_expenses a2 = []
  ∧ state_summary a1
    = {| daily := Q2Qc 25; byCategory := [("Alimentação", Q2Qc 25)] |}
  ∧ state_summary a2 = {| daily := 0; byCategory := [] |}.
Proof.
  vm_compute. repeat split; try reflexivity.
  repeat constructor. intros H. discriminate H.
Qed.

(** C6. Two [add_expense] calls handled within the same millisecond: the
    second expense is created with the identifier of the first, which the
    stored collection holds when the second is created. *)
Theorem same_millisecond_ids_collide :
  let r := current_render fresh_app in
  let a1 := handle_call r (at_ms 0) taxi fresh_app in
  let a2 := handle_call r (at_ms 0) cinema a1 in
  state_expenses a1 = [created (at_ms 0) taxi]
  ∧ last (sent a2)
    = Some {| fr_name := "add_expense"; fr_id := "call-2";
              fr_result := Added "success" (created (at_ms 0) cinema) |}
  ∧ created (at_ms 0) cinema ≠ created (at_ms 0) taxi
  ∧ id (created (at_ms 0) cinema) = id (created (at_ms 0) taxi).
Proof.
  vm_compute. repeat split; try reflexivity. intros H. discriminate H.
Qed.

End Store.

Close Scope Qc_scope.

(** ** The playback queue *)

Module Playback.

(** A decoded chunk: the samples of an [Int16Array]. *)
Abbreviation chunk := (list Z) (only parsing).

(** [audioQueue.current] and [isPlaying.current], with the audio output:
    [rendering] holds the buffer sources that were started and have not
    ended, [started] every chunk handed to [source.start()], both oldest
    first. *)
Record player := {
  audioQueue : list chunk;
  isPlaying : bool;
  rendering : list chunk;
  started : list chunk
}.

Definition idle : player :=
  {| audioQueue := []; isPlaying := false; rendering := []; started := [] |}.

(** [playNextInQueue] *)
Definition playNextInQueue (p : player) : player :=
  match audioQueue p with
  | [] => p
  | chunk :: rest =>
      if isPlaying p then p
      else {| audioQueue := rest;
              isPlaying := true;
              rendering := rendering p ++ [chunk];
              started := started p ++ [chunk] |}
  end.

(** What happens to the queue: an audio part arrives in [onmessage], the
    oldest source that is rendering ends, or the server content is marked
    [interrupted]. *)
Inductive event :=
| Enqueue (c : chunk)
| Ended
| Interrupted.

Definition step (p : player) (ev : event) : player :=
  match ev with
  | Enqueue c =>
      (* audioQueue.current.push(bytes); playNextInQueue(); *)
      playNextInQueue
        {| audioQueue := audioQueue p ++ [c];
           isPlaying := isPlaying p;
           rendering := rendering p;
           started := started p |}
  | Ended =>
      (* source.onended; without a source that renders there is no event *)
      match rendering p with
      | [] => p
      | _ :: others =>
          playNextInQueue
            {| audioQueue := audioQueue p;
               isPlaying := false;
               rendering := others;
               started := started p |}
      end
  | Interrupted =>
      (* audioQueue.current = []; isPlaying.current = false; *)
      {| audioQueue := [];
         isPlaying := false;
         rendering := rendering p;
         started := started p |}
  end.

Definition run (p : player) (tr : list event) : player := fold_left step tr p.















(** An interruption does not stop the source that is rendering: a chunk
    enqueued next starts while the interrupted one still renders. *)
Example interruption_overlaps :
  rendering (run idle [Enqueue [1]; Interrupted; Enqueue [2]]%Z)
  = [[1]; [2]]%Z.
Proof. reflexivity. Qed.

End Playback.

(** ** Recording: the silence detector and the teardown *)

Module Recorder.

(** What the routines do to the resources they hold, as the host sees it. *)
Inductive effect :=
| TrackStopped (stream : nat)        (* [track.stop()] on the tracks of a stream *)
| Disconnected (processor : nat)     (* [processor.disconnect()] *)
| TimeoutCleared (timer : positive)  (* [clearTimeout(timer)] *)
| SessionClosed (session : nat)      (* [session.close()] *)
| SilenceDetected.                   (* the silence timeout ran *)

#[global] Instance effect_eq_dec : EqDecision effect.
Proof. solve_decision. Defined.

(** The refs and the state of the component that recording touches,
    together with the host: the clock in milliseconds, the pending timeouts
    (identifier and due time, in the order they were set), the identifier
    [setTimeout] returns next (a positive integer) and the effects so far,
    oldest first. *)
Record recorder := {
  streamRef : option nat;
  processorRef : option nat;
  silenceTimerRef : option positive;
  sessionRef : option nat;
  isRecording : bool;
  status : string;
  now : N;
  timers : list (positive * N);
  next_timer : positive;
  effects : list effect
}.

Definition set_streamRef (v : option nat) (r : recorder) : recorder :=
  {| streamRef := v; processorRef := processorRef r;
     silenceTimerRef := silenceTimerRef r; sessionRef := sessionRef r;
     isRecording := isRecording r; status := status r; now := now r;
     timers := timers r; next_timer := next_timer r; effects := effects r |}.

Definition set_processorRef (v : option nat) (r : recorder) : recorder :=
  {| streamRef := streamRef r; processorRef := v;
     silenceTimerRef := silenceTimerRef r; sessionRef := sessionRef r;
     isRecording := isRecording r; status := status r; now := now r;
     timers := timers r; next_timer := next_timer r; effects := effects r |}.

Definition set_silenceTimerRef (v : option positive) (r : recorder)
  : recorder :=
  {| streamRef := streamRef r; processorRef := processorRef r;
     silenceTimerRef := v; sessionRef := sessionRef r;
     isRecording := isRecording r; status := status r; now := now r;
     timers := timers r; next_timer := next_timer r; effects := effects r |}.

Definition set_sessionRef (v : option nat) (r : recorder) : recorder :=
  {| streamRef := streamRef r; processorRef := processorRef r;
     silenceTimerRef := silenceTimerRef r; sessionRef := v;
     isRecording := isRecording r; status := status r; now := now r;
     timers := timers r; next_timer := next_timer r; effects := effects r |}.

Definition setIsRecording (v : bool) (r : recorder) : recorder :=
  {| streamRef := streamRef r; processorRef := processorRef r;
     silenceTimerRef := silenceTimerRef r; sessionRef := sessionRef r;
     isRecording := v; status := status r; now := now r;
     timers := timers r; next_timer := next_timer r; effects := effects r |}.

Definition setStatus (v : string) (r : recorder) : recorder :=
  {| streamRef := streamRef r; processorRef := processorRef r;
     silenceTimerRef := silenceTimerRef r; sessionRef := sessionRef r;
     isRecording := isRecording r; status := v; now := now r;
     timers := timers r; next_timer := next_timer r; effects := effects r |}.

Definition set_now (v : N) (r : recorder) : recorder :=
  {| streamRef := streamRef r; processorRef := processorRef r;
     silenceTimerRef := silenceTimerRef r; sessionRef := sessionRef r;
     isRecording := isRecording r; status := status r; now := v;
     timers := timers r; next_timer := next_timer r; effects := effects r |}.

Definition set_timers (v : list (positive * N)) (r : recorder) : recorder :=
  {| streamRef := streamRef r; processorRef := processorRef r;
     silenceTimerRef := silenceTimerRef r; sessionRef := sessionRef r;
     isRecording := isRecording r; status := status r; now := now r;
     timers := v; next_timer := next_timer r; effects := effects r |}.

Definition emit (e : effect) (r : recorder) : recorder :=
  {| streamRef := streamRef r; processorRef := processorRef r;
     silenceTimerRef := silenceTimerRef r; sessionRef := sessionRef r;
     isRecording := isRecording r; status := status r; now := now r;
     timers := timers r; next_timer := next_timer r;
     effects := effects r ++ [e] |}.

(** [setTimeout(callback, delay)]: the only callback of the component that
    is set on a ref is the silence timeout, so a pending timeout is its
    identifier and its due time. *)
Definition setTimeout (delay : N) (r : recorder) : positive * recorder :=
  let timer := next_timer r in
  (timer,
   {| streamRef := streamRef r; processorRef := processorRef r;
      silenceTimerRef := silenceTimerRef r; sessionRef := sessionRef r;
      isRecording := isRecording r; status := status r; now := now r;
      timers := timers r ++ [(timer, (now r + delay)%N)];
      next_timer := Pos.succ timer; effects := effects r |}).

(** [clearTimeout(timer)] *)
Definition clearTimeout (timer : positive) (r : recorder) : recorder :=
  emit (TimeoutCleared timer)
    (set_timers (filter (λ t, t.1 ≠ timer) (timers r)) r).

(** [stopRecording] *)
Definition stopRecording (r : recorder) : recorder :=
  let r :=
    match streamRef r with
    | Some stream => set_streamRef None (emit (TrackStopped stream) r)
    | None => r
    end in
  let r :=
    match processorRef r with
    | Some processor =>
        set_processorRef None (emit (Disconnected processor) r)
    | None => r
    end in
  let r :=
    match silenceTimerRef r with
    | Some timer => set_silenceTimerRef None (clearTimeout timer r)
    | None => r
    end in
  let r :=
    match sessionRef r with
    | Some session => set_sessionRef None (emit (SessionClosed session) r)
    | None => r
    end in
  setStatus "Pronto para ouvir" (setIsRecording false r).

(** The callback of the silence timeout. *)
Definition silence_timeout (r : recorder) : recorder :=
  stopRecording (emit SilenceDetected r).

(** [analyser.frequencyBinCount] for [fftSize = 256]. *)
Definition bufferLength : Z := 128.

(** [sum / bufferLength], where [sum] adds up the [bufferLength] bytes of
    [dataArray]. *)
Definition average (dataArray : list Z) : Qc :=
  (Q2Qc (inject_Z (fold_left Z.add dataArray 0%Z))
   / Q2Qc (inject_Z bufferLength))%Qc.

(** [average < 15] *)
Definition silent (dataArray : list Z) : Prop :=
  (average dataArray < Q2Qc 15)%Qc.

#[global] Instance silent_dec dataArray : Decision (silent dataArray).
Proof. unfold silent. apply _. Defined.

(** The silence detection of [onaudioprocess]. The rest of the handler
    encodes the block and sends it; it touches neither the refs nor the
    timeouts. *)
Definition onaudioprocess (dataArray : list Z) (r : recorder) : recorder :=
  if decide (silent dataArray) then
    match silenceTimerRef r with
    | None =>
        let '(timer, r) := setTimeout 3000 r in
        set_silenceTimerRef (Some timer) r
    | Some _ => r
    end
  else
    match silenceTimerRef r with
    | Some timer => set_silenceTimerRef None (clearTimeout timer r)
    | None => r
    end.

(** A timeout that is due runs its callback, unless it was cleared. *)
Definition fire (t : positive * N) (r : recorder) : recorder :=
  if decide (t ∈ timers r)
  then silence_timeout (set_timers (filter (λ t', t' ≠ t) (timers r)) r)
  else r.

(** What happens while recording: the processor delivers a block with the
    analyser's frequency data, or time passes. A processor delivers blocks
    from its creation until [stopRecording] disconnects it, that is, while
    [processorRef] holds it. *)
Inductive event :=
| Block (dataArray : list Z)
| Elapse (ms : N).

Definition step (r : recorder) (ev : event) : recorder :=
  match ev with
  | Block dataArray =>
      match processorRef r with
      | Some _ => onaudioprocess dataArray r
      | None => r
      end
  | Elapse ms =>
      let r := set_now (now r + ms)%N r in
      fold_left (λ r t, fire t r)
        (filter (λ t, (t.2 ≤ now r)%N) (timers r)) r
  end.

Definition run (r : recorder) (tr : list event) : recorder :=
  fold_left step tr r.

(** The number of times the silence detector has ended the session. *)
Definition terminations (r : recorder) : nat :=
  length (filter (λ e, e = SilenceDetected) (effects r)).


(** A recording that has just started, on the handles [stream],
    [processor] and [session]. *)
Definition recording (stream processor session : nat) : recorder :=
  {| streamRef := Some stream; processorRef := Some processor;
     silenceTimerRef := None; sessionRef := Some session;
     isRecording := true; status := "Ouvindo..."; now := 0;
     timers := []; next_timer := 1; effects := [] |}.

(** *** The teardown *)

(** The releases [stopRecording] performs: one per ref that holds a
    resource, in the order of the routine. *)
Definition released (r : recorder) : list effect :=
  option_list (TrackStopped <$> streamRef r)
  ++ option_list (Disconnected <$> processorRef r)
  ++ option_list (TimeoutCleared <$> silenceTimerRef r)
  ++ option_list (SessionClosed <$> sessionRef r).


Lemma stopRecording_effects r :
  effects (stopRecording r) = effects r ++ released r.
Proof.
  destruct r as [[s|] [p|] [t|] [c|] rec st n ts nt es];
    cbn; rewrite <- ?app_assoc, ?app_nil_r; reflexivity.
Qed.








(** *** The silence detector *)


















(** A block of 128 bins that all hold the byte [b]. *)
Definition flat (b : Z) : list Z := replicate 128 b.


(** The detector on two concrete runs: three seconds of silence end the
    session once; a block at the threshold after 2999 ms clears the
    timeout, which then never runs. *)
Example silence_runs :
  terminations
    (run (recording 1 2 3)
       [Block (flat 3); Elapse 1000; Block (flat 3); Elapse 2000;
        Block (flat 3); Elapse 5000]) = 1%nat
  ∧ terminations
      (run (recording 1 2 3)
         [Block (flat 3); Elapse 2999; Block (flat 15); Elapse 5000]) = 0%nat.
Proof. vm_compute. split; reflexivity. Qed.

End Recorder.

(** ** The backend: [POST /api/expenses] *)

Module Server.

(** A row of [categories]. *)
Record category_row := {
  category_id : Z;
  category_name : string
}.

(** A row of [expenses]; [expense_category_id] is nullable. *)
Record expense_row := {
  expense_id : Z;
  expense_amount : Qc;
  expense_description : string;
  expense_category_id : option Z;
  expense_date : string
}.

(** The database: the two tables in insertion order and, for each, the
    largest rowid it ever handed out ([sqlite_sequence], which
    [AUTOINCREMENT] maintains). *)
Record database := {
  categories : list category_row;
  categories_seq : Z;
  expenses : list expense_row;
  expenses_seq : Z
}.

(** The errors a statement raises. *)
Inductive sqlite_error :=
| UniqueViolation        (* [categories.name] is [UNIQUE] *)
| ForeignKeyViolation.   (* [expenses.category_id] references [categories] *)

(** A statement or a handler: it runs against the database and returns a
    value or throws; what it wrote before throwing stays written. *)
Definition sql (A : Type) : Type := database → database * (sqlite_error + A).

Definition ret {A} (a : A) : sql A := λ db, (db, inr a).

Definition throw {A} (e : sqlite_error) : sql A := λ db, (db, inl e).

Definition bind {A B} (m : sql A) (k : A → sql B) : sql B :=
  λ db, match m db with
        | (db', inr a) => k a db'
        | (db', inl e) => (db', inl e)
        end.

Notation "'let!' x ':=' m 'in' k" := (bind m (λ x, k))
  (at level 10, x name, m at level 100, k at level 200).

(** The rowid of the next row of an [AUTOINCREMENT] table: one more than
    the largest rowid that is or ever was in the table. *)
Definition next_rowid (ids : list Z) (seq : Z) : Z :=
  (foldr Z.max seq ids + 1)%Z.

(** [SELECT id FROM categories WHERE name = ?], [.get(name)]: the first
    matching row, or [undefined]. *)
Definition select_category (name : string) : sql (option category_row) :=
  λ db, (db, inr (find (λ c, bool_decide (category_name c = name))
                    (categories db))).

(** [INSERT INTO categories (name) VALUES (?)], [.run(name)]: the result is
    [info.lastInsertRowid]. *)
Definition insert_category (name : string) : sql Z :=
  λ db,
    if bool_decide (name ∈ category_name <$> categories db)
    then (db, inl UniqueViolation)
    else
      let rowid :=
        next_rowid (category_id <$> categories db) (categories_seq db) in
      ({| categories :=
            categories db ++ [{| category_id := rowid;
                                 category_name := name |}];
          categories_seq := rowid;
          expenses := expenses db;
          expenses_seq := expenses_seq db |},
       inr rowid).

(** [INSERT INTO expenses (amount, description, category_id) VALUES (?, ?,
    ?)], [.run(amount, description, category_id)], with foreign keys
    enforced; [timestamp] is [CURRENT_TIMESTAMP]. *)
Definition insert_expense (timestamp : string) (amount : Qc)
    (description : string) (cat : Z) : sql Z :=
  λ db,
    if bool_decide (cat ∈ category_id <$> categories db)
    then
      let rowid := next_rowid (expense_id <$> expenses db) (expenses_seq db) in
      ({| categories := categories db;
          categories_seq := categories_seq db;
          expenses :=
            expenses db ++ [{| expense_id := rowid;
                               expense_amount := amount;
                               expense_description := description;
                               expense_category_id := Some cat;
                               expense_date := timestamp |}];
          expenses_seq := rowid |},
       inr rowid)
    else (db, inl ForeignKeyViolation).

(** [req.body] *)
Record body := {
  amount : Qc;
  description : string;
  category : string
}.

(** The JSON of the response, [{ id, status }]. *)
Record reply := {
  id : Z;
  status : string
}.

(** The handler of [app.post("/api/expenses")]. *)
Definition post_expense (timestamp : string) (req : body) : sql reply :=
  let! found := select_category (category req) in
  let! cat :=
    match found with
    | Some row => ret (category_id row)
    | None => insert_category (category req)
    end in
  let! rowid :=
    insert_expense timestamp (amount req) (description req) cat in
  ret {| id := rowid; status := "success" |}.

(** The database after the initialisation script. *)
Definition initial : database :=
  {| categories :=
       [ {| category_id := 1; category_name := "Alimentação" |};
         {| category_id := 2; category_name := "Transporte" |};
         {| category_id := 3; category_name := "Lazer" |};
         {| category_id := 4; category_name := "Saúde" |};
         {| category_id := 5; category_name := "Educação" |};
         {| category_id := 6; category_name := "Outros" |} ];
     categories_seq := 6;
     expenses := [];
     expenses_seq := 0 |}.

Lemma rowid_above (ids : list Z) (seq x : Z) :
  x ∈ ids → (x < next_rowid ids seq)%Z.
Proof.
  unfold next_rowid. induction ids as [|y ids IH]; intros Hx.
  - by apply elem_of_nil in Hx.
  - apply elem_of_cons in Hx as [->|Hx]; cbn [foldr]; [lia|].
    specialize (IH Hx). lia.
Qed.

Lemma next_rowid_fresh (ids : list Z) (seq : Z) : next_rowid ids seq ∉ ids.
Proof. intros H. apply (rowid_above ids seq) in H. lia. Qed.


(** When the category has a row, the expense is linked to that row. *)
Lemma post_expense_known_category ts req db row :
  find (λ c, bool_decide (category_name c = category req)) (categories db)
  = Some row →
  ∃ db', post_expense ts req db
         = (db', inr {| id := next_rowid (expense_id <$> expenses db)
                                (expenses_seq db);
                        status := "success" |})
         ∧ categories db' = categories db
         ∧ last (expenses db')
           = Some {| expense_id := next_rowid (expense_id <$> expenses db)
                                     (expenses_seq db);
                     expense_amount := amount req;
                     expense_description := description req;
                     expense_category_id := Some (category_id row);
                     expense_date := ts |}.
Proof.
  intros Hfind. unfold post_expense, bind, select_category. rewrite Hfind.
  unfold ret at 1. unfold insert_expense.
  apply find_some in Hfind as [Hin _].
  rewrite bool_decide_eq_true_2.
  2:{ apply list_elem_of_fmap. exists row. split; [done|].
      by apply list_elem_of_In. }
  eexists. split; [reflexivity|]. split; [done|]. cbn. by rewrite last_snoc.
Qed.




End Server.

From Stdlib Require Import Sorted.

(** ** The ledger over time: sessions, the delete button and reloads *)

Module Ledger.

Import Store.

#[local] Open Scope Qc_scope.

(** [loadLocalData]; [now_iso] is the clock reading of [updateSummary].
    [JSON.parse] returns the list that [JSON.stringify] was given. *)
Definition loadLocalData (now_iso : string) (a : app) : app :=
  match localStorage a with
  | Some parsed =>
      {| state_expenses := parsed;
         state_summary := updateSummary now_iso parsed;
         localStorage := localStorage a;
         sent := sent a;
         fetched := fetched a |}
  | None => a
  end.

(** The component and the callbacks of the open session, if there is one:
    they are closures of the render in which [startRecording] ran. *)
Record world := {
  component : app;
  listener : option render
}.

(** What happens to the component. *)
Inductive action :=
| StartSession                                  (* [startRecording] connects *)
| ToolCall (clk : clock) (call : functionCall)  (* a call reaches [onmessage] *)
| StopSession                                   (* the session is closed *)
| DeleteButton (clk : clock) (expense_id : number)
| Reload (now_iso : string).                    (* the page is loaded again *)

(** A page load: the state starts from its initial values, the mount
    effect runs [loadLocalData], and no session is open. *)
Definition reload (now_iso : string) (a : app) : app :=
  loadLocalData now_iso
    {| state_expenses := [];
       state_summary := {| daily := 0; byCategory := [] |};
       localStorage := localStorage a;
       sent := sent a;
       fetched := fetched a |}.

Definition act (w : world) (x : action) : world :=
  match x with
  | StartSession =>
      {| component := component w;
         listener := Some (current_render (component w)) |}
  | ToolCall clk call =>
      match listener w with
      | Some r =>
          {| component := handle_call r clk call (component w);
             listener := listener w |}
      | None => w
      end
  | StopSession => {| component := component w; listener := None |}
  | DeleteButton clk expense_id =>
      {| component := ui_delete clk expense_id (component w);
         listener := listener w |}
  | Reload now_iso =>
      {| component := reload now_iso (component w); listener := None |}
  end.

Definition acts (w : world) (xs : list action) : world := fold_left act xs w.

(** The first visit: nothing stored, nothing recorded. *)
Definition first_visit : world :=
  {| component := fresh_app; listener := None |}.

(** The persisted copy agrees with the collection in memory. *)
Definition in_sync (a : app) : Prop :=
  match localStorage a with
  | Some saved => state_expenses a = saved
  | None => state_expenses a = []
  end.

(** The action leaves the callbacks of the session in place. *)
Definition keeps_listener (x : action) : Prop :=
  match x with
  | ToolCall _ _ | DeleteButton _ _ => True
  | StartSession | StopSession | Reload _ => False
  end.

(** The background request of a call, if it starts one. *)
Definition replication (call : functionCall) : option request :=
  if String.eqb (name call) "add_expense" then
    Some (PostExpense (arg_amount (call_args call))
            (arg_description (call_args call))
            (arg_category (call_args call)))
  else if String.eqb (name call) "get_expenses" then None
  else if String.eqb (name call) "delete_expense" then
    Some (DeleteExpense (arg_id (call_args call)))
  else None.

(** [byCategory.sort((a, b) => b.total - a.total)]: [Array.prototype.sort]
    is stable, so it yields what a stable insertion by non-increasing total
    yields. *)
Fixpoint insert_by_total (x : string * number) (l : list (string * number))
  : list (string * number) :=
  match l with
  | [] => [x]
  | y :: l' =>
      if decide (y.2 ≤ x.2) then x :: y :: l' else y :: insert_by_total x l'
  end.

Definition sort_by_total (l : list (string * number))
  : list (string * number) :=
  foldr insert_by_total [] l.

(** [summary.byCategory.sort(...)[0]?.name || '---'] *)
Definition top_category (s : Summary) : string :=
  match sort_by_total (byCategory s) with
  | [] => "---"
  | first :: _ => if String.eqb first.1 "" then "---" else first.1
  end.

(** *** Persistence *)

Lemma saveLocalData_in_sync clk l a : in_sync (saveLocalData clk l a).
Proof. reflexivity. Qed.

Lemma handle_call_in_sync r clk call a :
  in_sync a → in_sync (handle_call r clk call a).
Proof.
  intros Ha. unfold handle_call, dispatch.
  repeat (destruct (String.eqb (name call) _); [by cbn|]). by cbn.
Qed.

Lemma reload_in_sync now_iso a : in_sync (reload now_iso a).
Proof. unfold reload, loadLocalData, in_sync. cbn. by destruct (localStorage a). Qed.

Lemma reload_same now_iso a :
  in_sync a → state_expenses (reload now_iso a) = state_expenses a.
Proof.
  unfold in_sync, reload, loadLocalData. cbn.
  by destruct (localStorage a); cbn.
Qed.

Lemma act_in_sync w x : in_sync (component w) → in_sync (component (act w x)).
Proof.
  intros Hw. destruct x as [|clk call| |clk i|iso]; cbn; try done.
  - destruct (listener w); cbn; [by apply handle_call_in_sync|done].
  - apply reload_in_sync.
Qed.

Lemma acts_snoc w xs x : acts w (xs ++ [x]) = act (acts w xs) x.
Proof. unfold acts. by rewrite fold_left_app. Qed.

(** X1. Whatever sessions, button presses and reloads follow the first visit,
    the persisted copy is the collection in memory, so loading the page
    again shows the same collection. *)
Theorem reload_shows_the_same_collection (xs : list action) (now_iso : string) :
  let w := acts first_visit xs in
  in_sync (component w)
  ∧ state_expenses (component (act w (Reload now_iso)))
    = state_expenses (component w).
Proof.
  cbn zeta.
  assert (in_sync (component (acts first_visit xs))) as Hsync.
  { induction xs as [|x xs IH] using rev_ind; [done|].
    rewrite acts_snoc. by apply act_in_sync. }
  split; [done|]. cbn [act component]. by apply reload_same.
Qed.

(** *** The bridge *)

(** X2. Every call of a session is answered exactly once, in arrival order,
    under its own name and id; and the background requests are those of
    the [add_expense] and [delete_expense] calls, in arrival order. *)
Theorem calls_answered_once_in_order r (calls : list (clock * functionCall))
    (a : app) :
  let a' := handle_calls r calls a in
  (λ fr, (fr_name fr, fr_id fr)) <$> sent a'
  = ((λ fr, (fr_name fr, fr_id fr)) <$> sent a)
    ++ ((λ c, (name c.2, call_id c.2)) <$> calls)
  ∧ fetched a' = fetched a ++ omap (λ c, replication c.2) calls.
Proof.
  cbn zeta. induction calls as [|[clk call] calls IH] using rev_ind.
  - cbn. by rewrite !app_nil_r.
  - rewrite handle_calls_snoc. destruct IH as [IHs IHf].
    rewrite fmap_app, omap_app, !app_assoc, <- IHs, <- IHf.
    generalize (handle_calls r calls a). intros b.
    unfold handle_call, dispatch, replication. cbn.
    repeat (destruct (String.eqb (name call) _);
      [cbn; by rewrite ?fmap_app, ?app_nil_r|]).
    cbn. by rewrite ?fmap_app, ?app_nil_r.
Qed.

(** Tool calls and button presses leave the callbacks of the session in
    place. *)
Lemma acts_keep_listener w xs :
  Forall keeps_listener xs → listener (acts w xs) = listener w.
Proof.
  induction xs as [|x xs IH] using rev_ind; intros Hxs; [done|].
  apply Forall_app in Hxs as [Hxs Hx]. apply Forall_cons in Hx as [Hx _].
  rewrite acts_snoc, <- (IH Hxs).
  destruct x; cbn in *; try done.
  by destruct (listener (acts w xs)) eqn:E; cbn.
Qed.

(** X3. While a session stays open, [get_expenses] and [get_summary] answer
    with the collection and the summary of the render that opened it,
    whatever was added or deleted since, by the session or by the delete
    button. *)
Theorem open_session_reads_are_frozen w r xs clk cid :
  listener w = Some r →
  Forall keeps_listener xs →
  last (sent (component
          (acts w (xs ++ [ToolCall clk (call0 "get_expenses" cid)]))))
  = Some {| fr_name := "get_expenses"; fr_id := cid;
            fr_result := ExpenseList (expenses r) |}
  ∧ last (sent (component
            (acts w (xs ++ [ToolCall clk (call0 "get_summary" cid)]))))
    = Some {| fr_name := "get_summary"; fr_id := cid;
              fr_result := SummaryOf (summary r) |}.
Proof.
  intros Hr Hxs. rewrite !acts_snoc. cbn [act].
  rewrite (acts_keep_listener w xs Hxs), Hr.
  cbn [component]. unfold handle_call, dispatch. cbn.
  by rewrite !last_snoc.
Qed.

(** The theorem at a session opened on the first visit that adds an
    expense, followed by a press of the delete button. *)
Lemma open_session_reads_are_frozen_witness :
  let w := act first_visit StartSession in
  let xs := [ToolCall (at_ms 0) coffee; DeleteButton (at_ms 5) (Q2Qc 7)] in
  last (sent (component
          (acts w (xs ++ [ToolCall (at_ms 9) (call0 "get_expenses" "c")]))))
  = Some {| fr_name := "get_expenses"; fr_id := "c";
            fr_result := ExpenseList [] |}
  ∧ last (sent (component
            (acts w (xs ++ [ToolCall (at_ms 9) (call0 "get_summary" "c")]))))
    = Some {| fr_name := "get_summary"; fr_id := "c";
              fr_result := SummaryOf {| daily := 0; byCategory := [] |} |}.
Proof.
  apply (open_session_reads_are_frozen (act first_visit StartSession)
           (current_render fresh_app)
           [ToolCall (at_ms 0) coffee; DeleteButton (at_ms 5) (Q2Qc 7)]
           (at_ms 9) "c").
  - reflexivity.
  - repeat constructor.
Defined.

(** *** The daily total *)

Lemma split_T_head_prefix (iso : string) :
  String.prefix (split_T_head iso) iso = true.
Proof.
  induction iso as [|c rest IH]; [done|].
  cbn [split_T_head]. destruct (Ascii.eqb c "T"); [done|].
  cbn [String.prefix]. by destruct (Ascii.ascii_dec c c).
Qed.

(** X4. An expense added while the clock stays on one date is counted in the
    stored daily total: the total becomes the sum over the expenses of that
    date in the session's collection plus the new amount. *)
Theorem added_expense_counts_today r clk cid amount description category a :
  split_T_head (Date_iso clk) = split_T_head (summary_iso clk) →
  daily (state_summary
           (handle_call r clk
              (add_expense cid amount description category) a))
  = total (Store.amount <$>
             filter (falls_on (split_T_head (summary_iso clk))) (expenses r))
    + amount.
Proof.
  intros Hday. rewrite handle_call_add by done.
  cbn [sendToolResponse fetch saveLocalData state_summary updateSummary daily].
  rewrite reduce_sum_total, filter_app, fmap_app, total_app.
  rewrite filter_cons_True, filter_nil.
  2:{ unfold falls_on. cbn [created date]. rewrite <- Hday.
      apply split_T_head_prefix. }
  rewrite fmap_cons, fmap_nil, total_cons, total_nil. cbn [created Store.amount
    add_expense call_args arg_amount]. ring.
Qed.

(** The theorem at an expense added to the empty collection. *)
Lemma added_expense_counts_today_witness :
  daily (state_summary
           (handle_call (current_render fresh_app) (at_ms 0)
              (add_expense "c" (Q2Qc 25) "café" "Alimentação") fresh_app))
  = total (Store.amount <$>
             filter (falls_on (split_T_head (summary_iso (at_ms 0))))
               (expenses (current_render fresh_app)))
    + Q2Qc 25.
Proof.
  apply (added_expense_counts_today (current_render fresh_app) (at_ms 0) "c"
           (Q2Qc 25) "café" "Alimentação" fresh_app).
  reflexivity.
Defined.

(** *** The delete button *)



(** *** The top category *)

Lemma insert_by_total_perm x l : insert_by_total x l ≡ₚ x :: l.
Proof.
  induction l as [|y l IH]; [done|]. cbn [insert_by_total].
  destruct (decide (y.2 ≤ x.2)); [done|].
  rewrite IH. apply Permutation_swap.
Qed.

Lemma sort_by_total_perm l : sort_by_total l ≡ₚ l.
Proof.
  induction l as [|x l IH]; [done|].
  cbn [sort_by_total foldr]. fold (sort_by_total l).
  by rewrite insert_by_total_perm, IH.
Qed.

(** The first entry carries a greatest total. *)
Definition led_by_greatest (l : list (string * number)) : Prop :=
  match l with
  | [] => True
  | h :: _ => ∀ y, y ∈ l → y.2 ≤ h.2
  end.

Lemma insert_by_total_led x l :
  led_by_greatest l → led_by_greatest (insert_by_total x l).
Proof.
  destruct l as [|y l]; cbn [insert_by_total led_by_greatest].
  - intros _ z Hz. apply list_elem_of_singleton in Hz as ->. apply Qcle_refl.
  - intros Hy. destruct (decide (y.2 ≤ x.2)) as [Hle|Hgt].
    + intros z Hz. apply elem_of_cons in Hz as [->|Hz]; [apply Qcle_refl|].
      eapply Qcle_trans; [by apply Hy|done].
    + intros z Hz. apply elem_of_cons in Hz as [->|Hz]; [apply Qcle_refl|].
      rewrite insert_by_total_perm in Hz.
      apply elem_of_cons in Hz as [->|Hz].
      * apply Qclt_le_weak. by apply Qcnot_le_lt.
      * apply Hy. by right.
Qed.

Lemma sort_by_total_led l : led_by_greatest (sort_by_total l).
Proof.
  induction l as [|x l IH]; [done|].
  cbn [sort_by_total foldr]. fold (sort_by_total l).
  by apply insert_by_total_led.
Qed.

(** X6. The top category shown is the name of a bucket whose total no other
    bucket exceeds; the placeholder is shown when there is no bucket, or in
    place of an empty name. *)
Theorem top_category_has_greatest_total (s : Summary) :
  (byCategory s = [] → top_category s = "---")
  ∧ (byCategory s ≠ [] →
     ∃ n t, (n, t) ∈ byCategory s
            ∧ (∀ n' t', (n', t') ∈ byCategory s → t' ≤ t)
            ∧ top_category s = (if String.eqb n "" then "---" else n)).
Proof.
  unfold top_category. split.
  - by intros ->.
  - intros Hne.
    pose proof (sort_by_total_perm (byCategory s)) as Hperm.
    pose proof (sort_by_total_led (byCategory s)) as Hled.
    destruct (sort_by_total (byCategory s)) as [|[n t] rest].
    { symmetry in Hperm. by apply Permutation_nil_r in Hperm. }
    exists n, t. split; [|split; [|done]].
    + rewrite <- Hperm. by left.
    + intros n' t' Hin. rewrite <- Hperm in Hin. by apply (Hled (n', t')).
Qed.

(** The theorem's second part at a summary with three buckets. *)
Example top_category_of_three :
  top_category {| daily := 0;
                  byCategory := [("Lazer", Q2Qc 60); ("Transporte", Q2Qc 90);
                                 ("Outros", Q2Qc 90)] |}
  = "Transporte".
Proof. reflexivity. Qed.

End Ledger.

(** ** The lock screen *)

Module Auth.

(** A JavaScript string as its UTF-16 code units, which is what [length]
    counts and [===] compares. *)
Abbreviation jsstring := (list N) (only parsing).

(** The state of the lock screen and the [localStorage] entry
    [vozfinancas_password]. *)
Record gate := {
  isLocked : bool;
  isSetupNeeded : bool;
  passwordInput : jsstring;
  authError : string;
  stored_password : option jsstring
}.

(** [!storedPassword]: [null] and the empty string are falsy. *)
Definition missing (stored : option jsstring) : bool :=
  match stored with
  | None | Some [] => true
  | Some (_ :: _) => false
  end.

(** The component after its mount effect ran, on a browser that holds
    [stored]. *)
Definition mount (stored : option jsstring) : gate :=
  {| isLocked := true;
     isSetupNeeded := missing stored;
     passwordInput := [];
     authError := "";
     stored_password := stored |}.

(** [handleAuth] *)
Definition handleAuth (g : gate) : gate :=
  if isSetupNeeded g then
    if decide (length (passwordInput g) < 4)%nat then
      {| isLocked := isLocked g;
         isSetupNeeded := isSetupNeeded g;
         passwordInput := passwordInput g;
         authError := "A senha deve ter pelo menos 4 caracteres";
         stored_password := stored_password g |}
    else
      {| isLocked := false;
         isSetupNeeded := false;
         passwordInput := [];
         authError := "";
         stored_password := Some (passwordInput g) |}
  else
    if decide (stored_password g = Some (passwordInput g)) then
      {| isLocked := false;
         isSetupNeeded := isSetupNeeded g;
         passwordInput := [];
         authError := "";
         stored_password := stored_password g |}
    else
      {| isLocked := isLocked g;
         isSetupNeeded := isSetupNeeded g;
         passwordInput := passwordInput g;
         authError := "Senha incorreta";
         stored_password := stored_password g |}.

(** What the user does: types into the password field, submits the form
    or presses the lock button of the header. *)
Inductive input :=
| Type_ (value : jsstring)
| Submit
| Lock.

Definition react (g : gate) (i : input) : gate :=
  match i with
  | Type_ value =>
      {| isLocked := isLocked g;
         isSetupNeeded := isSetupNeeded g;
         passwordInput := value;
         authError := authError g;
         stored_password := stored_password g |}
  | Submit => handleAuth g
  | Lock =>
      {| isLocked := true;
         isSetupNeeded := isSetupNeeded g;
         passwordInput := passwordInput g;
         authError := authError g;
         stored_password := stored_password g |}
  end.

Definition reacts (g : gate) (ins : list input) : gate := fold_left react ins g.

(** The values typed along a trace. *)
Definition typed (ins : list input) : list jsstring :=
  omap (λ i, match i with Type_ v => Some v | _ => None end) ins.

(** X7. On a first visit, submitting a typed password unlocks the screen
    exactly when it has at least four code units; it is stored in that case
    and only then, and a refused password leaves the error message of the
    minimum length. *)
Theorem setup_requires_four_code_units (pw : jsstring) :
  let g := reacts (mount None) [Type_ pw; Submit] in
  (isLocked g = false ↔ (4 ≤ length pw)%nat)
  ∧ (stored_password g = Some pw ↔ (4 ≤ length pw)%nat)
  ∧ ((length pw < 4)%nat →
     stored_password g = None
     ∧ isSetupNeeded g = true
     ∧ authError g = "A senha deve ter pelo menos 4 caracteres").
Proof.
  cbn. unfold handleAuth. cbn.
  destruct (decide (length pw < 4)%nat) as [Hshort|Hlong]; cbn.
  - split; [split; [done|lia]|]. split; [split; [done|lia]|]. done.
  - split; [split; [lia|done]|]. split; [split; [lia|done]|]. lia.
Qed.

Lemma reacts_snoc g ins i : reacts g (ins ++ [i]) = react (reacts g ins) i.
Proof. unfold reacts. by rewrite fold_left_app. Qed.

(** X8. With a password stored, the screen stays locked and the stored
    password stays the same for as long as the password itself is not
    typed, whatever else is typed, submitted or locked. *)
Theorem locked_until_password_typed (pw : jsstring) (ins : list input) :
  pw ≠ [] →
  pw ∉ typed ins →
  isLocked (reacts (mount (Some pw)) ins) = true
  ∧ stored_password (reacts (mount (Some pw)) ins) = Some pw.
Proof.
  intros Hpw Htyped.
  assert (isLocked (reacts (mount (Some pw)) ins) = true
          ∧ isSetupNeeded (reacts (mount (Some pw)) ins) = false
          ∧ stored_password (reacts (mount (Some pw)) ins) = Some pw
          ∧ passwordInput (reacts (mount (Some pw)) ins) ≠ pw) as H.
  { induction ins as [|i ins IH] using rev_ind.
    - cbn. by destruct pw.
    - unfold typed in Htyped. rewrite omap_app in Htyped.
      apply not_elem_of_app in Htyped as [Hbefore Hi].
      destruct (IH Hbefore) as (Hl & Hs & Hst & Hin).
      rewrite reacts_snoc. revert Hl Hs Hst Hin.
      generalize (reacts (mount (Some pw)) ins).
      intros g Hl Hs Hst Hin. destruct i as [v| |]; cbn.
      + repeat split; try done. intros ->. apply Hi. cbn. by left.
      + unfold handleAuth. rewrite Hs, Hst.
        rewrite decide_False by (intros [= ->]; by apply Hin). by cbn.
      + done. }
  by destruct H as (? & _ & ? & _).
Qed.

(** The theorem at the stored password [abcd] and two wrong attempts. *)
Lemma locked_until_password_typed_witness :
  let pw := [97; 98; 99; 100]%N in
  let ins := [Type_ [97]%N; Submit; Type_ []; Submit; Lock] in
  isLocked (reacts (mount (Some pw)) ins) = true
  ∧ stored_password (reacts (mount (Some pw)) ins) = Some pw.
Proof.
  apply (locked_until_password_typed [97; 98; 99; 100]%N
           [Type_ [97]%N; Submit; Type_ []; Submit; Lock]).
  - discriminate.
  - cbn. intros H.
    repeat (apply elem_of_cons in H as [H|H]; [discriminate H|]).
    by apply elem_of_nil in H.
Defined.

(** X9. A password of at least four code units set on a first visit unlocks
    the screen and is stored; after the screen is locked again, a
    submitted value unlocks it exactly when it is that password. *)
Theorem password_round_trip (pw attempt : jsstring) :
  (4 ≤ length pw)%nat →
  let g := reacts (mount None) [Type_ pw; Submit] in
  isLocked g = false
  ∧ stored_password g = Some pw
  ∧ (isLocked (reacts g [Lock; Type_ attempt; Submit]) = false
     ↔ attempt = pw).
Proof.
  intros Hlen. cbn. destruct (decide (length pw < 4)%nat) as [|_]; [lia|].
  cbn. split; [done|]. split; [done|].
  unfold handleAuth. cbn.
  destruct (decide (Some pw = Some attempt)) as [Heq|Hne]; cbn.
  - split; [intros _; congruence|done].
  - split; [done|]. intros ->. by destruct Hne.
Qed.

(** The theorem at the password [abcd] and the attempt [abce]. *)
Lemma password_round_trip_witness :
  let pw := [97; 98; 99; 100]%N in
  let attempt := [97; 98; 99; 101]%N in
  let g := reacts (mount None) [Type_ pw; Submit] in
  isLocked g = false
  ∧ stored_password g = Some pw
  ∧ (isLocked (reacts g [Lock; Type_ attempt; Submit]) = false
     ↔ attempt = pw).
Proof.
  apply (password_round_trip [97; 98; 99; 100]%N [97; 98; 99; 101]%N).
  cbn. lia.
Defined.

End Auth.

(** ** Audio samples: what is sent, what is received, what is played *)

Module Pcm.

#[local] Open Scope Z_scope.

(** The conversion of an [Int16Array] element store, on an integer. *)
Definition toInt16 (v : Z) : Z :=
  let m := v mod 65536 in
  if decide (32768 ≤ m) then m - 65536 else m.

(** The operand of a bitwise operator: [charCodeAt] past the end of the
    string is [NaN], which converts to 0. *)
Definition toInt32 (charCode : option Z) : Z := default 0 charCode.

(** The decoding of an audio part in [onmessage]. [binaryString] holds the
    character codes of [atob(base64Data)], the array starts as
    [new Int16Array(len / 2)] (the length is truncated), the loop runs over
    [i = 0, 2, 4, ...] below [len], here [i = 2 * k], and a store past the
    end of the array does nothing. *)
Definition decode (binaryString : list Z) : list Z :=
  let len := length binaryString in
  foldl
    (λ bytes k,
       <[k := toInt16 (Z.lor (Z.shiftl (toInt32 (binaryString !! (2 * k + 1)%nat)) 8)
                         (toInt32 (binaryString !! (2 * k)%nat)))]> bytes)
    (replicate (len / 2)%nat 0)
    (seq 0 ((len + 1) / 2)%nat).

(** The conversion of an [Int16Array] element store, on a number: the
    fraction is dropped, towards zero. *)
Definition truncate (x : Qc) : Z := Z.quot (Qnum x) (Z.pos (Qden x)).

(** [Math.min(a, b)] and [Math.max(a, b)] *)
Definition Math_min (a b : Qc) : Qc := if decide (a ≤ b)%Qc then a else b.

Definition Math_max (a b : Qc) : Qc := if decide (a ≤ b)%Qc then b else a.

(** The sample [onaudioprocess] stores in [pcmData] for the input sample
    [x]: [Math.max(-1, Math.min(1, x)) * 32767]. *)
Definition to_pcm (x : Qc) : Z :=
  toInt16
    (truncate (Math_max (- Q2Qc 1) (Math_min (Q2Qc 1) x) * Q2Qc 32767)%Qc).

(** [pcmData] for the block [inputData]. *)
Definition encode (inputData : list Qc) : list Z := to_pcm <$> inputData.

(** The two bytes of a sample in [new Uint8Array(pcmData.buffer)], on a
    little-endian host. *)
Definition sample_bytes (s : Z) : list Z :=
  let u := s mod 65536 in [u mod 256; u / 256].

(** The character codes of [String.fromCharCode(...new
    Uint8Array(pcmData.buffer))]. *)
Definition buffer_bytes (pcmData : list Z) : list Z :=
  mjoin (sample_bytes <$> pcmData).

(** The samples [playNextInQueue] writes into the audio buffer:
    [chunk[i] / 32768.0]. *)
Definition channelData (chunk : list Z) : list Qc :=
  (λ s, (Q2Qc (inject_Z s) / Q2Qc 32768)%Qc) <$> chunk.

(** A 16-bit signed sample. *)
Definition int16 (s : Z) : Prop := -32768 ≤ s ≤ 32767.

(** A byte. *)
Definition byte (b : Z) : Prop := 0 ≤ b < 256.

(** The sample made of the bytes at [2 * k] and [2 * k + 1]. *)
Definition sample_at (binaryString : list Z) (k : nat) : Z :=
  toInt16 (Z.lor (Z.shiftl (toInt32 (binaryString !! (2 * k + 1)%nat)) 8)
             (toInt32 (binaryString !! (2 * k)%nat))).

(** The same decoding, two bytes at a time. *)
Fixpoint decode_pairs (binaryString : list Z) : list Z :=
  match binaryString with
  | lo :: hi :: rest => toInt16 (Z.lor (Z.shiftl hi 8) lo) :: decode_pairs rest
  | _ => []
  end.

(** *** Decoding *)

Lemma toInt16_int16 (v : Z) : int16 (toInt16 v).
Proof.
  unfold toInt16, int16. pose proof (Z.mod_pos_bound v 65536).
  destruct (decide (32768 ≤ v mod 65536)); lia.
Qed.

Lemma toInt16_of_mod (s : Z) : int16 s → toInt16 (s mod 65536) = s.
Proof.
  unfold int16, toInt16. intros Hs. rewrite Z.mod_mod by lia.
  destruct (decide (0 ≤ s)) as [Hpos|Hneg].
  - rewrite Z.mod_small by lia. destruct (decide (32768 ≤ s)); lia.
  - assert (s mod 65536 = s + 65536) as ->.
    { rewrite <- (Z_mod_plus_full s 1 65536). apply Z.mod_small. lia. }
    destruct (decide (32768 ≤ s + 65536)); lia.
Qed.

Lemma lor_shiftl_byte (hi lo : Z) :
  0 ≤ hi → byte lo → Z.lor (Z.shiftl hi 8) lo = hi * 256 + lo.
Proof.
  intros Hhi Hlo. rewrite Z.shiftl_mul_pow2 by lia.
  assert (Z.land (hi * 2 ^ 8) lo = 0) as Hland.
  { apply Z.bits_inj'. intros n Hn. rewrite Z.land_spec, Z.bits_0.
    destruct (decide (n < 8)) as [Hlow|Hhigh].
    - by rewrite Z.mul_pow2_bits_low.
    - rewrite <- (Z.mod_small lo (2 ^ 8)) by (unfold byte in Hlo; lia).
      rewrite Z.mod_pow2_bits_high by lia. apply andb_false_r. }
  rewrite <- Z.lxor_lor, <- Z.add_nocarry_lxor by done. lia.
Qed.

Lemma stores_length (f : nat → Z) (n m : nat) :
  length (foldl (λ bytes k, <[k := f k]> bytes) (replicate n 0) (seq 0 m)) = n.
Proof.
  induction m as [|m IH]; [apply length_replicate|].
  rewrite seq_S, foldl_app. cbn [foldl]. by rewrite length_insert.
Qed.

(** Storing [f k] at every [k] below [m], in a zeroed array of [n]
    elements. *)
Lemma stores_lookup (f : nat → Z) (n m k : nat) :
  foldl (λ bytes k, <[k := f k]> bytes) (replicate n 0) (seq 0 m) !! k
  = if decide (k < n)%nat
    then Some (if decide (k < m)%nat then f k else 0)
    else None.
Proof.
  induction m as [|m IH].
  - cbn [seq foldl]. destruct (decide (k < n)%nat) as [Hk|Hk].
    + rewrite decide_False by lia. by apply lookup_replicate.
    + apply lookup_ge_None. rewrite length_replicate. lia.
  - rewrite seq_S, foldl_app. cbn [foldl Nat.add].
    set (prev := foldl _ _ (seq 0 m)) in *.
    assert (length prev = n) as Hlen by apply stores_length.
    destruct (decide (k = m)) as [->|Hne].
    + destruct (decide (m < n)%nat) as [Hm|Hm].
      * rewrite list_lookup_insert_eq by lia. by rewrite decide_True by lia.
      * apply lookup_ge_None. rewrite length_insert. lia.
    + rewrite list_lookup_insert_ne, IH by done.
      destruct (decide (k < n)%nat); [|done].
      destruct (decide (k < m)%nat).
      * by rewrite decide_True by lia.
      * by rewrite decide_False by lia.
Qed.

Lemma decode_lookup (l : list Z) (k : nat) :
  decode l !! k
  = if decide (k < length l / 2)%nat then Some (sample_at l k) else None.
Proof.
  unfold decode. rewrite (stores_lookup (sample_at l)).
  destruct (decide (k < length l / 2)%nat) as [Hk|]; [|done].
  rewrite decide_True; [done|].
  pose proof (Nat.Div0.div_le_mono (length l) (length l + 1) 2). lia.
Qed.

Lemma half_SS (n : nat) : (S (S n) / 2 = S (n / 2))%nat.
Proof.
  replace (S (S n)) with (1 * 2 + n)%nat by lia.
  by rewrite Nat.div_add_l by lia.
Qed.

(** Lists, two elements at a time. *)
Lemma pairs_ind (P : list Z → Prop) :
  P [] → (∀ x, P [x]) → (∀ lo hi rest, P rest → P (lo :: hi :: rest)) →
  ∀ l, P l.
Proof.
  intros Hnil Hone Hpair l.
  assert (P l ∧ ∀ x, P (x :: l)) as [H _]; [|done].
  induction l as [|y l [IH1 IH2]]; [by split|].
  split; [apply IH2|]. intros x. by apply Hpair.
Qed.

Lemma decode_pairs_lookup (l : list Z) (k : nat) :
  decode_pairs l !! k
  = if decide (k < length l / 2)%nat then Some (sample_at l k) else None.
Proof.
  revert k. induction l as [|x|lo hi rest IH] using pairs_ind; intros k.
  - done.
  - done.
  - cbn [decode_pairs length].
    rewrite half_SS. destruct k as [|k]; [done|].
    cbn [lookup list_lookup]. rewrite IH.
    unfold sample_at.
    replace (2 * S k + 1)%nat with (S (S (2 * k + 1))) by lia.
    replace (2 * S k)%nat with (S (S (2 * k))) by lia.
    cbn [lookup list_lookup].
    destruct (decide (k < length rest / 2)%nat).
    + by rewrite decide_True by lia.
    + by rewrite decide_False by lia.
Qed.

Lemma decode_as_pairs (l : list Z) : decode l = decode_pairs l.
Proof.
  apply list_eq. intros k. by rewrite decode_lookup, decode_pairs_lookup.
Qed.

Lemma decode_pairs_length (l : list Z) :
  length (decode_pairs l) = (length l / 2)%nat.
Proof.
  induction l as [|x|lo hi rest IH] using pairs_ind; [done..|].
  cbn [decode_pairs length]. by rewrite IH, half_SS.
Qed.

Lemma decode_pairs_int16 (l : list Z) : Forall int16 (decode_pairs l).
Proof.
  induction l as [|x|lo hi rest IH] using pairs_ind;
    cbn [decode_pairs]; try by constructor.
  constructor; [apply toInt16_int16|done].
Qed.

(** X10. The decoding loop yields the samples of the string taken two bytes at a
    time, low byte first: half as many samples as bytes, rounded down, so
    that a trailing odd byte is dropped, each a 16-bit signed value. *)
Theorem decode_two_bytes_per_sample (binaryString : list Z) :
  decode binaryString = decode_pairs binaryString
  ∧ length (decode binaryString) = (length binaryString / 2)%nat
  ∧ Forall int16 (decode binaryString)
  ∧ (∀ b, Nat.Even (length binaryString) →
          decode (binaryString ++ [b]) = decode binaryString).
Proof.
  split; [apply decode_as_pairs|].
  split; [rewrite decode_as_pairs; apply decode_pairs_length|].
  split; [rewrite decode_as_pairs; apply decode_pairs_int16|].
  intros b Heven. rewrite !decode_as_pairs.
  induction binaryString as [|x|lo hi rest IH] using pairs_ind.
  - done.
  - destruct Heven as [n Hn]. cbn in Hn. lia.
  - cbn [app decode_pairs]. rewrite IH; [done|].
    destruct Heven as [n Hn]. cbn [length] in Hn. exists (n - 1)%nat. lia.
Qed.

(** *** The wire format *)

Lemma sample_bytes_decoded (s : Z) (rest : list Z) :
  int16 s → decode_pairs (sample_bytes s ++ rest) = s :: decode_pairs rest.
Proof.
  intros Hs. unfold sample_bytes. cbn [app decode_pairs]. f_equal.
  pose proof (Z.mod_pos_bound s 65536).
  pose proof (Z.mod_pos_bound (s mod 65536) 256).
  rewrite lor_shiftl_byte.
  - rewrite Z.mul_comm, <- Z.div_mod by lia. by apply toInt16_of_mod.
  - apply Z.div_pos; lia.
  - unfold byte. lia.
Qed.

(** X11. The bytes the capture side lays out for 16-bit samples are two per
    sample, each a byte, and the decoding of the playback side reads them
    back as the same samples. *)
Theorem buffer_bytes_round_trip (pcmData : list Z) :
  Forall int16 pcmData →
  length (buffer_bytes pcmData) = (2 * length pcmData)%nat
  ∧ Forall byte (buffer_bytes pcmData)
  ∧ decode (buffer_bytes pcmData) = pcmData.
Proof.
  intros Hs. rewrite decode_as_pairs. unfold buffer_bytes.
  induction Hs as [|s l Hs _ (IHlen & IHbytes & IHdec)]; [done|].
  rewrite fmap_cons.
  change (mjoin (sample_bytes s :: (sample_bytes <$> l)))
    with (sample_bytes s ++ mjoin (sample_bytes <$> l)).
  split; [|split].
  - rewrite length_app, IHlen. cbn. lia.
  - apply Forall_app. split; [|done].
    pose proof (Z.mod_pos_bound s 65536).
    pose proof (Z.mod_pos_bound (s mod 65536) 256).
    unfold sample_bytes, byte. repeat constructor; try lia.
    + apply Z.div_pos; lia.
    + apply Z.div_lt_upper_bound; lia.
  - by rewrite sample_bytes_decoded, IHdec.
Qed.

(** The theorem at three samples, the extreme values among them. *)
Lemma buffer_bytes_round_trip_witness :
  length (buffer_bytes [-32768; -1; 32767]) = (2 * 3)%nat
  ∧ Forall byte (buffer_bytes [-32768; -1; 32767])
  ∧ decode (buffer_bytes [-32768; -1; 32767]) = [-32768; -1; 32767].
Proof.
  apply (buffer_bytes_round_trip [-32768; -1; 32767]).
  repeat constructor; unfold int16; lia.
Defined.

(** *** Encoding and playback *)

Lemma toInt16_id (v : Z) : int16 v → toInt16 v = v.
Proof.
  intros Hv. unfold int16 in Hv. unfold toInt16.
  destruct (decide (0 ≤ v)) as [Hpos|Hneg].
  - rewrite Z.mod_small by lia. destruct (decide (32768 ≤ v)); lia.
  - assert (v mod 65536 = v + 65536) as ->.
    { rewrite <- (Z_mod_plus_full v 1 65536). apply Z.mod_small. lia. }
    destruct (decide (32768 ≤ v + 65536)); lia.
Qed.

Lemma Q2Qc_Z_le (a b : Z) :
  (Q2Qc (inject_Z a) ≤ Q2Qc (inject_Z b))%Qc ↔ a ≤ b.
Proof.
  unfold Qcle. cbn [this Q2Qc]. rewrite !Qred_correct.
  by rewrite <- Zle_Qle.
Qed.

Lemma Q2Qc_Z_lt (a b : Z) :
  (Q2Qc (inject_Z a) < Q2Qc (inject_Z b))%Qc ↔ a < b.
Proof.
  unfold Qclt. cbn [this Q2Qc]. rewrite !Qred_correct.
  by rewrite <- Zlt_Qlt.
Qed.

(** Dropping the fraction keeps a number between two integers of opposite
    signs between them. *)
Lemma truncate_between (y : Qc) (a b : Z) :
  a ≤ 0 ≤ b →
  (Q2Qc (inject_Z a) ≤ y)%Qc → (y ≤ Q2Qc (inject_Z b))%Qc →
  a ≤ truncate y ≤ b.
Proof.
  intros Hab Ha Hb. unfold Qcle in Ha, Hb. cbn [this Q2Qc] in Ha, Hb.
  rewrite Qred_correct in Ha, Hb. unfold Qle in Ha, Hb. cbn in Ha, Hb.
  unfold truncate. destruct y as [[n d] Hcanon]. cbn in *.
  destruct (decide (0 ≤ n)) as [Hn|Hn].
  - split.
    + pose proof (Z.quot_pos n (Z.pos d)). lia.
    + apply Z.quot_le_upper_bound; lia.
  - replace n with (- - n) by lia. rewrite Z.quot_opp_l by lia.
    split.
    + assert (- n ÷ Z.pos d ≤ - a); [|lia].
      apply Z.quot_le_upper_bound; lia.
    + pose proof (Z.quot_pos (- n) (Z.pos d)). lia.
Qed.

Lemma clamp_between (x : Qc) :
  (- Q2Qc 1 ≤ Math_max (- Q2Qc 1) (Math_min (Q2Qc 1) x))%Qc
  ∧ (Math_max (- Q2Qc 1) (Math_min (Q2Qc 1) x) ≤ Q2Qc 1)%Qc.
Proof.
  unfold Math_max, Math_min.
  destruct (decide (Q2Qc 1 ≤ x)%Qc) as [H1|H1].
  - destruct (decide (- Q2Qc 1 ≤ Q2Qc 1)%Qc) as [H2|H2].
    + split; [done|apply Qcle_refl].
    + by destruct H2.
  - destruct (decide (- Q2Qc 1 ≤ x)%Qc) as [H2|H2].
    + split; [done|]. apply Qclt_le_weak. by apply Qcnot_le_lt.
    + split; [apply Qcle_refl|done].
Qed.

(** X12. Whatever the input sample, the stored sample lies between -32767 and
    32767, so the 16-bit store never wraps; inputs from 1 upwards are
    stored as 32767 and inputs from -1 downwards as -32767. *)
Theorem to_pcm_saturates (x : Qc) :
  -32767 ≤ to_pcm x ≤ 32767
  ∧ ((Q2Qc 1 ≤ x)%Qc → to_pcm x = 32767)
  ∧ ((x ≤ - Q2Qc 1)%Qc → to_pcm x = -32767).
Proof.
  split; [|split].
  - unfold to_pcm. destruct (clamp_between x) as [Hlo Hhi].
    set (c := Math_max _ _) in *.
    assert (-32767 ≤ truncate (c * Q2Qc 32767)%Qc ≤ 32767) as Ht.
    { apply truncate_between; [lia|..].
      - replace (Q2Qc (inject_Z (-32767))) with (- Q2Qc 1 * Q2Qc 32767)%Qc
          by (by apply Qc_is_canon).
        by apply Qcmult_le_compat_r.
      - replace (Q2Qc (inject_Z 32767)) with (Q2Qc 1 * Q2Qc 32767)%Qc
          by (by apply Qc_is_canon).
        by apply Qcmult_le_compat_r. }
    rewrite toInt16_id; [done|]. unfold int16. lia.
  - intros Hx. unfold to_pcm, Math_max, Math_min.
    rewrite (decide_True (P := (Q2Qc 1 ≤ x)%Qc)) by done.
    by rewrite decide_True.
  - intros Hx. unfold to_pcm.
    assert (Math_max (- Q2Qc 1) (Math_min (Q2Qc 1) x) = - Q2Qc 1)%Qc
      as ->; [|done].
    unfold Math_max, Math_min.
    destruct (decide (Q2Qc 1 ≤ x)%Qc) as [H1|H1].
    { exfalso. assert (Q2Qc 1 ≤ - Q2Qc 1)%Qc as Habs
        by (by eapply Qcle_trans). by apply Habs. }
    destruct (decide (- Q2Qc 1 ≤ x)%Qc) as [H2|H2]; [|done].
    by apply Qcle_antisym.
Qed.

Lemma int16_normalised (s : Z) :
  int16 s →
  (- Q2Qc 1 ≤ Q2Qc (inject_Z s) / Q2Qc 32768)%Qc
  ∧ (Q2Qc (inject_Z s) / Q2Qc 32768 < Q2Qc 1)%Qc.
Proof.
  intros [Hlo Hhi].
  assert (Q2Qc 0 < Q2Qc 32768)%Qc as Hpos by done.
  assert ((Q2Qc (inject_Z s) / Q2Qc 32768) * Q2Qc 32768
          = Q2Qc (inject_Z s))%Qc as Hmul.
  { field. intros H. discriminate H. }
  split.
  - apply (Qcmult_le_mono_pos_r _ _ _ Hpos). rewrite Hmul.
    replace (- Q2Qc 1 * Q2Qc 32768)%Qc with (Q2Qc (inject_Z (-32768)))
      by (by apply Qc_is_canon).
    by apply Q2Qc_Z_le.
  - apply (Qcmult_lt_mono_pos_r _ _ _ Hpos). rewrite Hmul.
    replace (Q2Qc 1 * Q2Qc 32768)%Qc with (Q2Qc (inject_Z 32768))
      by (by apply Qc_is_canon).
    apply Q2Qc_Z_lt. lia.
Qed.

(** X13. Whatever bytes arrive, every sample written to the audio buffer lies
    in the range from -1 (included) to 1 (excluded). *)
Theorem playback_samples_normalised (binaryString : list Z) :
  Forall (λ v, (- Q2Qc 1 ≤ v)%Qc ∧ (v < Q2Qc 1)%Qc)
    (channelData (decode binaryString)).
Proof.
  unfold channelData. apply Forall_fmap.
  rewrite decode_as_pairs.
  eapply Forall_impl; [apply decode_pairs_int16|].
  intros s Hs. by apply int16_normalised.
Qed.

End Pcm.

(** ** Playback under interruption *)

Module Interruption.

Import Playback.






End Interruption.

(** ** Starting a recording *)

Module Setup.

Import Recorder.

(** A thrown value: its [name] and its [message]. *)
Record failure := {
  err_name : string;
  err_message : string
}.

(** [new Error(message)] *)
Definition Error (message : string) : failure :=
  {| err_name := "Error"; err_message := message |}.

(** What the host answers during one run of [startRecording]: whether
    [navigator.mediaDevices.getUserMedia] exists, the outcome of
    [getUserMedia] with the three constraints and with [audio: true] (a
    rejection or the handle of the stream), whether an [AudioContext] class
    exists, the rejection of [audioContext.resume()] if there is one, the
    handle of the processor that [createScriptProcessor] returns, and the
    outcome of [ai.live.connect]. *)
Record host := {
  supported : bool;
  advanced : failure + nat;
  simple : failure + nat;
  hasAudioContext : bool;
  resume_rejected : option failure;
  processor : nat;
  connected : failure + nat
}.

(** The inner [try]/[catch]: the simple constraints are tried when the
    advanced ones are rejected. *)
Definition getUserMedia (h : host) : failure + nat :=
  match advanced h with
  | inr stream => inr stream
  | inl _ => simple h
  end.

(** The status the [catch] block sets. *)
Definition report (err : failure) : string :=
  if String.eqb (err_name err) "NotAllowedError"
     || String.eqb (err_name err) "PermissionDeniedError"
  then "Permissão de microfone negada. Ative nas configurações do navegador."
  else if String.eqb (err_message err) "NOT_SUPPORTED"
          || String.eqb (err_message err) "AUDIO_CONTEXT_NOT_SUPPORTED"
  then "Seu navegador não suporta gravação de áudio."
  else "Erro ao acessar microfone. Verifique as permissões.".

(** [startRecording], run to its end with no other event in between. The
    refs [audioContextRef] and [analyserRef], which neither [stopRecording]
    nor the silence detector reads, are not part of [recorder]; [onopen]
    runs before [connect] resolves. *)
Definition startRecording (h : host) (r : recorder) : recorder :=
  if isRecording r then stopRecording r
  else
    let r := setStatus "Solicitando microfone..." r in
    if negb (supported h) then setStatus (report (Error "NOT_SUPPORTED")) r
    else
      match getUserMedia h with
      | inl err => setStatus (report err) r
      | inr stream =>
          let r := set_streamRef (Some stream) r in
          if negb (hasAudioContext h)
          then setStatus (report (Error "AUDIO_CONTEXT_NOT_SUPPORTED")) r
          else
            match resume_rejected h with
            | Some err => setStatus (report err) r
            | None =>
                let r := set_processorRef (Some (processor h)) r in
                let r := setStatus "Conectando ao assistente..." r in
                match connected h with
                | inl err => setStatus (report err) r
                | inr session =>
                    let r := setStatus "Ouvindo..." (setIsRecording true r) in
                    set_sessionRef (Some session) r
                end
            end
      end.

(** The run acquires the microphone stream [stream] and fails later. *)
Definition fails_holding (h : host) (stream : nat) : Prop :=
  supported h = true
  ∧ getUserMedia h = inr stream
  ∧ (hasAudioContext h = false
     ∨ is_Some (resume_rejected h)
     ∨ ∃ err, connected h = inl err).

(** The run succeeds on the stream [stream] and the session [session]. *)
Definition succeeds (h : host) (stream session : nat) : Prop :=
  supported h = true
  ∧ getUserMedia h = inr stream
  ∧ hasAudioContext h = true
  ∧ resume_rejected h = None
  ∧ connected h = inr session.

(** No ref holds a resource and nothing is being recorded. *)
Definition at_rest (r : recorder) : Prop :=
  streamRef r = None ∧ processorRef r = None ∧ silenceTimerRef r = None
  ∧ sessionRef r = None ∧ isRecording r = false.

(** Outside the toggle branch [startRecording] releases nothing. *)
Lemma startRecording_effects h r :
  isRecording r = false → effects (startRecording h r) = effects r.
Proof.
  intros Hr. unfold startRecording. rewrite Hr.
  destruct (supported h); [|done]. cbn [negb].
  destruct (getUserMedia h) as [err|stream]; [done|].
  destruct (hasAudioContext h); [|done]. cbn [negb].
  destruct (resume_rejected h); [done|].
  by destruct (connected h).
Qed.

Lemma startRecording_stream h r stream :
  isRecording r = false → supported h = true →
  getUserMedia h = inr stream →
  streamRef (startRecording h r) = Some stream.
Proof.
  intros Hr Hs Hg. unfold startRecording. rewrite Hr, Hs, Hg. cbn [negb].
  destruct (hasAudioContext h); [|done]. cbn [negb].
  destruct (resume_rejected h); [done|].
  by destruct (connected h).
Qed.

(** X16. A run that fails after the microphone was acquired releases nothing:
    the stream stays on [streamRef] and nothing is being recorded. The
    next press of the button therefore starts over and puts its own stream
    on the ref, after which stopping the recording stops that stream and
    never the first one. *)
Theorem failed_setup_keeps_microphone h h' r stream stream' :
  isRecording r = false →
  fails_holding h stream →
  supported h' = true →
  getUserMedia h' = inr stream' →
  stream' ≠ stream →
  TrackStopped stream ∉ effects r →
  let r1 := startRecording h r in
  let r2 := startRecording h' r1 in
  streamRef r1 = Some stream
  ∧ isRecording r1 = false
  ∧ effects r1 = effects r
  ∧ streamRef r2 = Some stream'
  ∧ TrackStopped stream ∉ effects (stopRecording r2).
Proof.
  intros Hr (Hs & Hg & Hfail) Hs' Hg' Hne Hclean r1 r2.
  assert (isRecording r1 = false) as Hr1.
  { subst r1. unfold startRecording. rewrite Hr, Hs, Hg. cbn [negb].
    destruct (hasAudioContext h); [|done]. cbn [negb].
    destruct (resume_rejected h) as [err|]; [done|].
    destruct Hfail as [Hf|[[err Hf]|[err Hf]]]; [done..|].
    by rewrite Hf. }
  assert (effects r2 = effects r) as He2.
  { subst r2. rewrite startRecording_effects by done.
    by apply startRecording_effects. }
  assert (streamRef r2 = Some stream') as Hs2
    by (by apply startRecording_stream).
  split; [by apply startRecording_stream|]. split; [done|].
  split; [by apply startRecording_effects|]. split; [done|].
  rewrite stopRecording_effects, He2. intros Hin.
  apply elem_of_app in Hin as [Hin|Hin]; [done|].
  unfold released in Hin. rewrite Hs2 in Hin.
  destruct (processorRef r2), (silenceTimerRef r2), (sessionRef r2);
    cbn in Hin;
    repeat (apply elem_of_cons in Hin as [Hin|Hin]; [congruence|]);
    by apply elem_of_nil in Hin.
Qed.

(** A host on which the connection fails and one on which all succeeds. *)
Definition offline : host :=
  {| supported := true; advanced := inr 7%nat; simple := inr 7%nat;
     hasAudioContext := true; resume_rejected := None; processor := 8%nat;
     connected := inl (Error "WebSocket closed") |}.

Definition online : host :=
  {| supported := true; advanced := inl (Error "OverconstrainedError");
     simple := inr 9%nat; hasAudioContext := true; resume_rejected := None;
     processor := 10%nat; connected := inr 11%nat |}.

(** The component before the first recording. *)
Definition rest : recorder :=
  {| streamRef := None; processorRef := None; silenceTimerRef := None;
     sessionRef := None; isRecording := false; status := "Pronto para ouvir";
     now := 0; timers := []; next_timer := 1; effects := [] |}.

(** The theorem at a failed connection followed by a successful start. *)
Lemma failed_setup_keeps_microphone_witness :
  let r1 := startRecording offline rest in
  let r2 := startRecording online r1 in
  streamRef r1 = Some 7%nat
  ∧ isRecording r1 = false
  ∧ effects r1 = effects rest
  ∧ streamRef r2 = Some 9%nat
  ∧ TrackStopped 7 ∉ effects (stopRecording r2).
Proof.
  apply (failed_setup_keeps_microphone offline online rest 7%nat 9%nat).
  - reflexivity.
  - repeat split. right. right. by eexists.
  - reflexivity.
  - reflexivity.
  - discriminate.
  - apply not_elem_of_nil.
Defined.

(** X17. A successful start puts the stream, the processor and the session on
    their refs and shows the listening status; the next press of the button
    releases exactly these three and leaves the component at rest. *)
Theorem start_then_stop_releases_everything h h' r stream session :
  at_rest r →
  succeeds h stream session →
  let r1 := startRecording h r in
  let r2 := startRecording h' r1 in
  (streamRef r1 = Some stream ∧ processorRef r1 = Some (processor h)
   ∧ sessionRef r1 = Some session ∧ isRecording r1 = true
   ∧ status r1 = "Ouvindo...")
  ∧ at_rest r2
  ∧ status r2 = "Pronto para ouvir"
  ∧ effects r2
    = effects r ++ [TrackStopped stream; Disconnected (processor h);
                    SessionClosed session].
Proof.
  intros (H1 & H2 & H3 & H4 & H5) (Hs & Hg & Ha & Hres & Hc) r1 r2.
  assert (r1 = set_sessionRef (Some session)
                 (setStatus "Ouvindo..."
                    (setIsRecording true
                       (setStatus "Conectando ao assistente..."
                          (set_processorRef (Some (processor h))
                             (set_streamRef (Some stream)
                                (setStatus "Solicitando microfone..." r)))))))
    as Hr1.
  { subst r1. unfold startRecording.
    rewrite H5, Hs, Hg, Ha, Hres, Hc. reflexivity. }
  subst r2. rewrite Hr1. clear Hr1 r1.
  destruct r as [s p t c rec st n ts nt es]. cbn in H1, H2, H3, H4, H5.
  subst s p t c rec. unfold startRecording.
  cbn [isRecording set_sessionRef setStatus setIsRecording set_processorRef
       set_streamRef].
  unfold stopRecording, at_rest. cbn.
  repeat split; try reflexivity. by rewrite <- !app_assoc.
Qed.

(** The theorem at a successful start from rest. *)
Lemma start_then_stop_releases_everything_witness :
  let r1 := startRecording online rest in
  let r2 := startRecording offline r1 in
  (streamRef r1 = Some 9%nat ∧ processorRef r1 = Some (processor online)
   ∧ sessionRef r1 = Some 11%nat ∧ isRecording r1 = true
   ∧ status r1 = "Ouvindo...")
  ∧ at_rest r2
  ∧ status r2 = "Pronto para ouvir"
  ∧ effects r2
    = effects rest ++ [TrackStopped 9; Disconnected (processor online);
                       SessionClosed 11].
Proof.
  apply (start_then_stop_releases_everything online offline rest 9%nat 11%nat).
  - by repeat split.
  - by repeat split.
Defined.

End Setup.

(** ** The silence detector along arbitrary traces *)

Module Detector.

Import Recorder.








End Detector.

(** ** The backend: deleting and summarising *)

Module Backend.

Import Server.

#[local] Open Scope Qc_scope.

(** The handler of [app.delete("/api/expenses/:id")]. [param] is
    [req.params.id] as the comparison with the integer column reads it: the
    integer the text denotes, or none, which equals no rowid. *)
Definition delete_expense (param : option Z) : sql string :=
  λ db,
    ({| categories := categories db;
        categories_seq := categories_seq db;
        expenses :=
          filter (λ e, Some (expense_id e) ≠ param) (expenses db);
        expenses_seq := expenses_seq db |},
     inr "success"%string).





(** The JSON of the summary. *)
Record summary := {
  daily : Qc;
  byCategory : list (string * Qc)
}.


(** A request to the API. *)
Inductive api_request :=
| Post (timestamp : string) (req : body)
| Delete (param : option Z).

(** The database after a request, and the rowid of the reply to a [POST]
    that succeeded. *)
Definition serve (db : database) (r : api_request) : database * option Z :=
  match r with
  | Post timestamp req =>
      match post_expense timestamp req db with
      | (db', inr reply) => (db', Some (id reply))
      | (db', inl _) => (db', None)
      end
  | Delete param => ((delete_expense param db).1, None)
  end.

(** The databases and the [POST] rowids along a sequence of requests. *)
Fixpoint serve_all (db : database) (rs : list api_request) : database * list Z :=
  match rs with
  | [] => (db, [])
  | r :: rs =>
      let '(db', rowid) := serve db r in
      let '(db'', rowids) := serve_all db' rs in
      (db'', option_list rowid ++ rowids)
  end.

(** Rowids and category names are unique, and every expense refers to a
    row of [categories]. *)
Record well_formed (db : database) : Prop := {
  category_ids_unique : NoDup (category_id <$> categories db);
  category_names_unique : NoDup (category_name <$> categories db);
  expense_ids_unique : NoDup (expense_id <$> expenses db);
  expenses_linked :
    Forall (λ e, ∃ c, expense_category_id e = Some c
                      ∧ c ∈ category_id <$> categories db)
      (expenses db)
}.

(** The database with one more expense, filed under the category rowid
    [cat]. *)
Definition with_expense (timestamp : string) (req : body) (cat : Z)
    (db : database) : database :=
  let rowid := next_rowid (expense_id <$> expenses db) (expenses_seq db) in
  {| categories := categories db;
     categories_seq := categories_seq db;
     expenses :=
       expenses db ++ [{| expense_id := rowid;
                          expense_amount := amount req;
                          expense_description := description req;
                          expense_category_id := Some cat;
                          expense_date := timestamp |}];
     expenses_seq := rowid |}.

(** The database with one more category. *)
Definition with_category (name : string) (db : database) : database :=
  let rowid := next_rowid (category_id <$> categories db) (categories_seq db) in
  {| categories :=
       categories db ++ [{| category_id := rowid; category_name := name |}];
     categories_seq := rowid;
     expenses := expenses db;
     expenses_seq := expenses_seq db |}.

Lemma insert_expense_linked timestamp amount description cat db :
  cat ∈ category_id <$> categories db →
  insert_expense timestamp amount description cat db
  = (with_expense timestamp
       {| Server.amount := amount; Server.description := description;
          category := "" |} cat db,
     inr (next_rowid (expense_id <$> expenses db) (expenses_seq db))).
Proof.
  intros Hin. unfold insert_expense. by rewrite bool_decide_eq_true_2.
Qed.

(** The two ways of a [POST]: the category is found, or it is created. *)
Lemma post_expense_cases timestamp req db :
  let reply :=
    {| id := next_rowid (expense_id <$> expenses db) (expenses_seq db);
       status := "success" |} in
  (∃ row, row ∈ categories db ∧ category_name row = category req
          ∧ post_expense timestamp req db
            = (with_expense timestamp req (category_id row) db, inr reply))
  ∨ ((category req ∉ category_name <$> categories db)
     ∧ post_expense timestamp req db
       = (with_expense timestamp req
            (next_rowid (category_id <$> categories db) (categories_seq db))
            (with_category (category req) db),
          inr reply)).
Proof.
  intros reply. unfold post_expense, bind, select_category.
  destruct (find _ (categories db)) as [row|] eqn:Hfind.
  - left. exists row. apply find_some in Hfind as [Hin Hname].
    apply bool_decide_eq_true_1 in Hname. apply list_elem_of_In in Hin.
    split; [done|]. split; [done|].
    unfold ret at 1. rewrite insert_expense_linked.
    + done.
    + apply list_elem_of_fmap. by exists row.
  - right.
    assert (category req ∉ category_name <$> categories db) as Hnew.
    { intros Hin. apply list_elem_of_fmap in Hin as (row & Hname & Hrow).
      apply list_elem_of_In in Hrow.
      pose proof (find_none _ _ Hfind row Hrow) as Hfalse.
      apply bool_decide_eq_false_1 in Hfalse. by apply Hfalse. }
    split; [done|].
    unfold insert_category. rewrite bool_decide_eq_false_2 by done.
    fold (with_category (category req) db).
    rewrite insert_expense_linked.
    + done.
    + unfold with_category. cbn [categories]. rewrite fmap_app.
      apply elem_of_app. right. by left.
Qed.


(** *** Rowids *)




(** *** Consistency *)

Lemma initial_consistent : well_formed initial.
Proof.
  split; cbn.
  - apply (bool_decide_unpack _). by vm_compute.
  - apply (bool_decide_unpack _). by vm_compute.
  - constructor.
  - constructor.
Qed.

Lemma with_expense_consistent timestamp req cat db :
  cat ∈ category_id <$> categories db →
  well_formed db → well_formed (with_expense timestamp req cat db).
Proof.
  intros Hcat [Hids Hnames Heids Hlinked]. split; cbn [with_expense
    categories expenses]; try done.
  - rewrite fmap_app. apply NoDup_app. split; [done|]. split.
    + intros x Hx Hin. apply list_elem_of_singleton in Hin. subst x.
      by apply next_rowid_fresh in Hx.
    + cbn. apply NoDup_singleton.
  - apply Forall_app. split; [done|]. constructor; [|done].
    by exists cat.
Qed.

Lemma with_category_consistent name db :
  name ∉ category_name <$> categories db →
  well_formed db → well_formed (with_category name db).
Proof.
  intros Hname [Hids Hnames Heids Hlinked]. split; cbn [with_category
    categories expenses]; try done.
  - rewrite fmap_app. apply NoDup_app. split; [done|]. split.
    + intros x Hx Hin. apply list_elem_of_singleton in Hin. subst x.
      by apply next_rowid_fresh in Hx.
    + cbn. apply NoDup_singleton.
  - rewrite fmap_app. apply NoDup_app. split; [done|]. split.
    + intros x Hx Hin. apply list_elem_of_singleton in Hin. by subst x.
    + cbn. apply NoDup_singleton.
  - eapply Forall_impl; [exact Hlinked|]. intros e (c & Hc & Hin).
    exists c. split; [done|]. rewrite fmap_app. apply elem_of_app. by left.
Qed.

Lemma delete_expense_consistent param db :
  well_formed db → well_formed (delete_expense param db).1.
Proof.
  intros [Hids Hnames Heids Hlinked]. split; cbn; try done.
  - eapply sublist_NoDup; [exact Heids|].
    apply fmap_sublist, sublist_filter.
  - apply Forall_forall. intros e He.
    apply list_elem_of_filter in He as [_ He].
    rewrite Forall_forall in Hlinked. by apply Hlinked.
Qed.

Lemma serve_consistent db r : well_formed db → well_formed (serve db r).1.
Proof.
  intros Hdb. destruct r as [timestamp req|param]; cbn [serve].
  - destruct (post_expense_cases timestamp req db)
      as [(row & Hrow & _ & ->)|[Hnew ->]]; cbn [fst].
    + apply with_expense_consistent; [|done].
      apply list_elem_of_fmap. by exists row.
    + apply with_expense_consistent.
      * cbn [with_category categories]. rewrite fmap_app.
        apply elem_of_app. right. by left.
      * by apply with_category_consistent.
  - by apply delete_expense_consistent.
Qed.

Lemma serve_all_consistent db rs :
  well_formed db → well_formed (serve_all db rs).1.
Proof.
  revert db. induction rs as [|r rs IH]; intros db Hdb; [done|].
  cbn [serve_all]. pose proof (serve_consistent db r Hdb) as Hdb'.
  destruct (serve db r) as [db' rowid]. cbn [fst] in Hdb'.
  specialize (IH db' Hdb'). by destruct (serve_all db' rs).
Qed.

(** X21. Whatever requests follow the initialisation, the rowids of each table
    stay unique, no two categories share a name, and every expense refers to
    a row of [categories]. *)
Theorem requests_keep_database_consistent (rs : list api_request) :
  well_formed (serve_all initial rs).1.
Proof. apply serve_all_consistent, initial_consistent. Qed.

(** *** Deleting *)

(** X22. A [DELETE] removes the expense that carries the rowid and nothing
    else: the other expenses stay in their order, the categories and the
    rowid counters are untouched, the answer is [success] whether or not a
    row was there, and deleting again changes nothing. *)
Theorem delete_removes_only_that_row (param : option Z) (db : database) :
  let db' := (delete_expense param db).1 in
  (delete_expense param db).2 = inr "success"%string
  ∧ (∀ e, e ∈ expenses db' ↔ e ∈ expenses db ∧ Some (expense_id e) ≠ param)
  ∧ expenses db' `sublist_of` expenses db
  ∧ categories db' = categories db
  ∧ expenses_seq db' = expenses_seq db
  ∧ delete_expense param db' = (db', inr "success"%string).
Proof.
  cbn. split; [done|]. split; [|split; [apply sublist_filter|]].
  - intros e. rewrite list_elem_of_filter. tauto.
  - split; [done|]. split; [done|]. unfold delete_expense. cbn.
    by rewrite list_filter_filter, (list_filter_iff _ (λ e, Some (expense_id e) ≠ param))
      by tauto.
Qed.

(** *** Summarising *)








End Backend.
